(** * Image Deduper: the duplicate-resolution engine of
    [check_for_duplicates.py]

    A shallow embedding of [DeduperGUI.dedupe_process] and of the helpers it
    calls, followed by the properties of the clustering pass, of the
    kept-file copy and of the session totals.

    Conventions of the embedding:
    - a Python [dict] is an insertion-ordered association list with unique
      keys ([dict V]); [len], [in], [setdefault], item assignment and [del]
      are the functions [dict_len], [dict_contains], [dict_setdefault],
      [dict_set] and [dict_del];
    - Python integers are [Z];
    - a perceptual hash (an 8x8 boolean array) is the 64-bit number whose
      bit [k] is the [k]-th cell of the flattened array; the difference of
      two hashes is the number of cells in which they differ;
    - the value of [self.running] read at a loop head is given by an oracle
      indexed by the reads of the flag in the order the run makes them,
      since the flag is written by another thread;
    - calls of [self.log] and updates of the progress bar touch only the
      widgets and are left out. *)

From stdpp Require Import base numbers list strings gmap pretty.

Set Warnings "-clear-no-such-hyp".

Local Open Scope Z_scope.

(** ** Python dictionaries *)

Definition dict (V : Type) : Type := list (string * V).

Section Dict.
Context {V : Type}.

Fixpoint dict_get (k : string) (d : dict V) : option V :=
  match d with
  | [] => None
  | (k', v) :: d' => if decide (k = k') then Some v else dict_get k d'
  end.

(** [k in d] *)
Definition dict_contains (k : string) (d : dict V) : bool :=
  match dict_get k d with Some _ => true | None => false end.

(** [d[k] = v]: an existing key keeps its position, a new key goes last. *)
Fixpoint dict_set (k : string) (v : V) (d : dict V) : dict V :=
  match d with
  | [] => [(k, v)]
  | (k', v') :: d' =>
      if decide (k = k') then (k, v) :: d' else (k', v') :: dict_set k v d'
  end.

(** [del d[k]] for a key that is present. *)
Fixpoint dict_del (k : string) (d : dict V) : dict V :=
  match d with
  | [] => []
  | (k', v') :: d' =>
      if decide (k = k') then d' else (k', v') :: dict_del k d'
  end.

(** [d.setdefault(k, v)], used for its effect on [d] only. *)
Definition dict_setdefault (k : string) (v : V) (d : dict V) : dict V :=
  if dict_contains k d then d else dict_set k v d.

Definition dict_keys (d : dict V) : list string := d.*1.
Definition dict_values (d : dict V) : list V := d.*2.
Definition dict_len (d : dict V) : Z := Z.of_nat (length d).
End Dict.

(** ** Settings *)

Definition HASH_DISTANCE_THRESHOLD : Z := 5.

(** ** Image records *)

(** One entry of the list [hashes]. *)
Record ImageRecord : Type := {
  path : string;
  hash : Z;
  resolution : Z * Z;
  resolution_str : string
}.

(** [format_resolution]: the empty tuple (a falsy value) gives "unknown". *)
Definition format_resolution (res_tuple : option (Z * Z)) : string :=
  match res_tuple with
  | None => "unknown"
  | Some (w, h) => pretty w +:+ "x" +:+ pretty h
  end.

(** Number of set bits among the 64 cells of a hash. *)
Definition count_nonzero (x : Z) : Z :=
  Z.of_nat (length (filter (λ k, Z.testbit x (Z.of_nat k) = true) (seq 0 64))).

(** [a - b] on two hashes: the cells in which they differ. *)
Definition hash_sub (a b : Z) : Z := count_nonzero (Z.lxor a b).

Definition area (r : Z * Z) : Z := r.1 * r.2.

Definition resolution_eqb (r1 r2 : Z * Z) : bool :=
  (r1.1 =? r2.1) && (r1.2 =? r2.2).

(** ** The comparison pass *)

(** A duplicate edge: the value stored under a removed path. *)
Definition DuplicateEdge : Type := (string * Z)%type.

Record cluster_state : Type := {
  kept : dict ImageRecord;
  duplicates : dict DuplicateEdge
}.

Definition empty_state : cluster_state := {| kept := []; duplicates := [] |}.

(** Body of the loop over [j], for the anchor [A] and the later record [B]. *)
Definition inner_body (A B : ImageRecord) (st : cluster_state) : cluster_state :=
  if dict_contains (path B) (duplicates st) then st
  else
    let dist := hash_sub (hash A) (hash B) in
    if dist <=? HASH_DISTANCE_THRESHOLD then
      if resolution_eqb (resolution A) (resolution B) then st
      else if area (resolution A) >=? area (resolution B) then
        {| kept := kept st;
           duplicates := dict_set (path B) (path A, dist) (duplicates st) |}
      else
        {| kept :=
             dict_set (path B) B
               (if dict_contains (path A) (kept st)
                then dict_del (path A) (kept st) else kept st);
           duplicates := dict_set (path A) (path B, dist) (duplicates st) |}
    else st.

(** [for j in range(i+1, len(hashes))], [later] being [hashes[i+1:]]. *)
Definition inner_loop (A : ImageRecord) (later : list ImageRecord)
    (st : cluster_state) : cluster_state :=
  foldl (λ s B, inner_body A B s) st later.

(** One iteration of the loop over [i] once the flag has been read. *)
Definition outer_body (A : ImageRecord) (later : list ImageRecord)
    (st : cluster_state) : cluster_state :=
  if dict_contains (path A) (duplicates st) then st
  else
    inner_loop A later
      {| kept := dict_setdefault (path A) A (kept st);
         duplicates := duplicates st |}.

(** [for i in range(len(hashes))], [records] being the records not yet
    visited.  [running i] is the value of [self.running] read at the head of
    the iteration, [i] counting the reads of the flag; [None] is the early
    [return]. *)
Fixpoint comparison_pass (running : nat → bool) (i : nat)
    (records : list ImageRecord) (st : cluster_state) : option cluster_state :=
  match records with
  | [] => Some st
  | A :: later =>
      if running i then comparison_pass running (S i) later (outer_body A later st)
      else None
  end.

(** The pass when no cancellation is ever observed. *)
Fixpoint cluster_from (records : list ImageRecord) (st : cluster_state)
    : cluster_state :=
  match records with
  | [] => st
  | A :: later => cluster_from later (outer_body A later st)
  end.

Definition cluster (hashes : list ImageRecord) : cluster_state :=
  cluster_from hashes empty_state.

(** ** Recorded edges

    The assignments [duplicates[...] = (..., dist)] of the pass, each with
    the state in which it is made.  [recorded A B st] is the assignment that
    [inner_body A B st] performs, if any. *)

Record recording : Type := {
  removed : string;
  edge : DuplicateEdge;
  before : cluster_state
}.

Definition recorded (A B : ImageRecord) (st : cluster_state) : option recording :=
  if dict_contains (path B) (duplicates st) then None
  else
    let dist := hash_sub (hash A) (hash B) in
    if dist <=? HASH_DISTANCE_THRESHOLD then
      if resolution_eqb (resolution A) (resolution B) then None
      else if area (resolution A) >=? area (resolution B) then
        Some {| removed := path B; edge := (path A, dist); before := st |}
      else
        Some {| removed := path A; edge := (path B, dist); before := st |}
    else None.

Fixpoint inner_trace (A : ImageRecord) (later : list ImageRecord)
    (st : cluster_state) : list recording :=
  match later with
  | [] => []
  | B :: later' =>
      option_list (recorded A B st) ++ inner_trace A later' (inner_body A B st)
  end.

Definition outer_trace (A : ImageRecord) (later : list ImageRecord)
    (st : cluster_state) : list recording :=
  if dict_contains (path A) (duplicates st) then []
  else
    inner_trace A later
      {| kept := dict_setdefault (path A) A (kept st);
         duplicates := duplicates st |}.

Fixpoint trace_from (records : list ImageRecord) (st : cluster_state)
    : list recording :=
  match records with
  | [] => []
  | A :: later => outer_trace A later st ++ trace_from later (outer_body A later st)
  end.

(** All edges recorded by an uncancelled pass, in the order of recording. *)
Definition cluster_trace (hashes : list ImageRecord) : list recording :=
  trace_from hashes empty_state.

(** ** Files, directories and the session artifacts

    A file holds either bytes (an image or any other source file, and every
    copy of one) or one of the four artifacts of a session.  The artifacts
    are kept structured: the two CSV files as their rows, the JSON summary
    as the dictionary handed to [json.dump], the Markdown report as the
    sequence of strings handed to [write]. *)

Definition VALID_EXTS : list string :=
  [".jpg"; ".jpeg"; ".png"; ".bmp"; ".tiff"; ".gif"; ".webp"].

(** A row of [duplicate_rows]. *)
Record duplicate_row : Type := {
  row_removed : string;
  row_moved_to : string;
  row_removed_resolution : string;
  row_kept : string;
  row_kept_resolution : string;
  row_distance : Z
}.

(** [json_data]. *)
Record session : Type := {
  timestamp : string;
  source_directory : string;
  output_directory : string;
  trash_directory : string;
  total_scanned : Z;
  total_kept : Z;
  total_duplicates : Z;
  hash_method : string;
  hash_distance_threshold : Z;
  clusters : dict (list string)
}.

Inductive content : Type :=
  | FileBytes (b : string)
  | DuplicateLog (header : list string) (rows : list duplicate_row)
  | DuplicateDetails (header : list string) (rows : list (string * string))
  | SessionJson (data : session)
  | SessionReport (chunks : list string).

Record world : Type := {
  files : gmap string content;
  dirs : gset string
}.

Inductive exn : Type :=
  | FileNotFoundError
  | SameFileError
  | IsADirectoryError
  | StopIteration.

(** Ways in which [dedupe_process] ends before its last statement. *)
Inductive stop : Type :=
  | NoImages
  | Cancelled
  | Raised (e : exn).

(** Statements that act on the file system and may leave the function. *)
Definition action (A : Type) : Type := world → (stop + A) * world.

Definition ret {A} (a : A) : action A := λ w, (inr a, w).
Definition leave {A} (s : stop) : action A := λ w, (inl s, w).
Definition bind {A B} (m : action A) (f : A → action B) : action B :=
  λ w, match m w with
       | (inr a, w') => f a w'
       | (inl s, w') => (inl s, w')
       end.

Notation "'let*' x := m 'in' k" := (bind m (λ x, k))
  (at level 10, x name, m at level 100, k at level 200).
Notation "m >> k" := (bind m (λ _, k))
  (at level 100, k at level 200, right associativity).

Definition get_world : action world := λ w, (inr w, w).

(** [os.path.exists] *)
Definition path_exists (p : string) (w : world) : bool :=
  bool_decide (is_Some (files w !! p)) || bool_decide (p ∈ dirs w).

(** [safe_mkdir]; of the directories [os.makedirs] creates only [p] itself
    is tracked. *)
Definition safe_mkdir (p : string) : action unit := λ w,
  if path_exists p w then (inr (), w)
  else (inr (), {| files := files w; dirs := {[p]} ∪ dirs w |}).

(** [open(p, "w")] followed by the writes that produce [c]. *)
Definition write_file (p : string) (c : content) : action unit := λ w,
  if bool_decide (p ∈ dirs w) then (inl (Raised IsADirectoryError), w)
  else (inr (), {| files := <[p := c]> (files w); dirs := dirs w |}).

(** The operating system and the imaging libraries, as the run uses them:
    [os.path.join], [os.path.basename], [os.path.splitext], [str.lower];
    [os.walk], the triples [(root, dirs, files)] in the order yielded; and
    [Image.open], [img.size] and [imagehash.phash] on the content of a file,
    giving width, height and hash, or [None] when any of them raises. *)
Class Platform : Type := {
  path_join : string → string → string;
  basename : string → string;
  splitext : string → string * string;
  lower : string → string;
  os_walk : world → string → list (string * list string * list string);
  decode : content → option (Z * Z * Z)
}.

Section Run.
Context `{Platform}.

Definition find_images_recursive (w : world) (rootdir : string) : list string :=
  flat_map
    (λ '(root, _, fs),
       (λ f, path_join root f)
         <$> filter (λ f, lower (splitext f).2 ∈ VALID_EXTS) fs)
    (os_walk w rootdir).

(** The [try] block of the hashing loop for one path. *)
Definition read_image (w : world) (img_path : string) : option ImageRecord :=
  match files w !! img_path with
  | None => None
  | Some c =>
      match decode c with
      | None => None
      | Some (wd, ht, ph) =>
          Some {| path := img_path; hash := ph; resolution := (wd, ht);
                  resolution_str := format_resolution (Some (wd, ht)) |}
      end
  end.

(** The hashing loop from the [t]-th read of the flag on; [None] is the
    early [return]. *)
Fixpoint hashing_loop (running : nat → bool) (t : nat) (w : world)
    (images : list string) (hashes : list ImageRecord)
    : option (list ImageRecord) :=
  match images with
  | [] => Some hashes
  | img_path :: rest =>
      if running t then
        match read_image w img_path with
        | Some r => hashing_loop running (S t) w rest (hashes ++ [r])
        | None => hashing_loop running (S t) w rest hashes
        end
      else None
  end.

(** [shutil.copy2]: a directory as destination receives the file under
    its own name. *)
Definition copy2 (src dst : string) : action unit := λ w,
  let dst' := if bool_decide (dst ∈ dirs w)
              then path_join dst (basename src) else dst in
  if decide (src = dst') then (inl (Raised SameFileError), w)
  else match files w !! src with
       | None => (inl (Raised FileNotFoundError), w)
       | Some c => write_file dst' c w
       end.

(** Copying the kept images. *)
Fixpoint copy_kept (out_dir : string) (ks : list ImageRecord) : action unit :=
  match ks with
  | [] => ret ()
  | k :: ks' =>
      let dst := path_join out_dir (basename (path k)) in
      let* w := get_world in
      (if path_exists dst w then ret () else copy2 (path k) dst) >>
      copy_kept out_dir ks'
  end.

(** [next(h for h in hashes if h["path"] == p)] *)
Definition next_with_path (p : string) (hashes : list ImageRecord)
    : action ImageRecord :=
  match find (λ h, bool_decide (path h = p)) hashes with
  | Some h => ret h
  | None => leave (Raised StopIteration)
  end.

(** Copying the duplicates to the trash and collecting [duplicate_rows]. *)
Fixpoint move_duplicates (trash_dir : string) (hashes : list ImageRecord)
    (items : list (string * DuplicateEdge)) (duplicate_rows : list duplicate_row)
    : action (list duplicate_row) :=
  match items with
  | [] => ret duplicate_rows
  | (dup_path, (kept_path, dist)) :: items' =>
      let filename := basename dup_path in
      let trash_loc := path_join trash_dir filename in
      copy2 dup_path trash_loc >>
      let* A := next_with_path dup_path hashes in
      let* B := next_with_path kept_path hashes in
      move_duplicates trash_dir hashes items'
        (duplicate_rows ++
           [{| row_removed := dup_path; row_moved_to := trash_loc;
               row_removed_resolution := resolution_str A;
               row_kept := kept_path;
               row_kept_resolution := resolution_str B;
               row_distance := dist |}])
  end.

Definition trash_reasons (duplicates : dict DuplicateEdge)
    : list (string * string) :=
  (λ '(dup_path, (kept_path, dist)),
     (dup_path,
      "Lower resolution than " +:+ kept_path +:+ ", distance " +:+ pretty dist))
    <$> duplicates.

(** [clusters.setdefault(kept_path, []).append(dup_path)] over the items. *)
Definition build_clusters (duplicates : dict DuplicateEdge) : dict (list string) :=
  foldl
    (λ cl '(dup_path, (kept_path, _)),
       dict_set kept_path (default [] (dict_get kept_path cl) ++ [dup_path]) cl)
    [] duplicates.

Definition nl : string := String (Ascii.ascii_of_nat 10) EmptyString.

Definition report_chunks (now src_dir out_dir trash_dir : string)
    (total_files n_kept n_duplicates : Z) (cl : dict (list string))
    : list string :=
  [ "# Dedupe Session Report" +:+ nl +:+ nl;
    "**Timestamp:** " +:+ now +:+ nl +:+ nl;
    "**Source directory:** `" +:+ src_dir +:+ "`" +:+ nl +:+ nl;
    "**Output directory:** `" +:+ out_dir +:+ "`" +:+ nl +:+ nl;
    "**Trash directory:** `" +:+ trash_dir +:+ "`" +:+ nl +:+ nl;
    "---" +:+ nl +:+ nl;
    "## Summary" +:+ nl;
    "- Total images scanned: **" +:+ pretty total_files +:+ "**" +:+ nl;
    "- Kept images: **" +:+ pretty n_kept +:+ "**" +:+ nl;
    "- Duplicates: **" +:+ pretty n_duplicates +:+ "**" +:+ nl;
    "- Hash distance threshold: `" +:+ pretty HASH_DISTANCE_THRESHOLD
      +:+ "`" +:+ nl +:+ nl;
    "## Duplicate Clusters" +:+ nl +:+ nl ]
  ++ flat_map
       (λ '(keeper, dups),
          ["### Kept Image: `" +:+ keeper +:+ "`" +:+ nl +:+ nl]
          ++ ((λ d, "- `" +:+ d +:+ "`" +:+ nl) <$> dups)
          ++ [nl])
       cl.

(** What a run is started with: the two directories, the flag as the run
    reads it, and the two values of [datetime.now().isoformat()]. *)
Record run_input : Type := {
  src_dir : string;
  out_dir : string;
  running : nat → bool;
  now_json : string;
  now_report : string
}.

(** [dedupe_process]; a completed run yields [json_data]. *)
Definition dedupe_process (inp : run_input) : action session :=
  let* w0 := get_world in
  let images := find_images_recursive w0 (src_dir inp) in
  let total_files := Z.of_nat (length images) in
  if total_files =? 0 then leave NoImages
  else
    match hashing_loop (running inp) 0 w0 images [] with
    | None => leave Cancelled
    | Some hashes =>
        match comparison_pass (running inp) (length images) hashes empty_state with
        | None => leave Cancelled
        | Some st =>
            safe_mkdir (out_dir inp) >>
            let trash_dir := path_join (out_dir inp) "trash" in
            safe_mkdir trash_dir >>
            copy_kept (out_dir inp) (dict_values (kept st)) >>
            let* duplicate_rows :=
              move_duplicates trash_dir hashes (duplicates st) [] in
            let csv_path := path_join (out_dir inp) "duplicate_log.csv" in
            write_file csv_path
              (DuplicateLog
                 ["Removed File"; "Moved To"; "Removed Resolution";
                  "Kept File"; "Kept Resolution"; "Hash Distance"]
                 duplicate_rows) >>
            let trash_csv := path_join trash_dir "duplicate_details.csv" in
            write_file trash_csv
              (DuplicateDetails ["Removed File"; "Reason"]
                 (trash_reasons (duplicates st))) >>
            let json_path := path_join (out_dir inp) "dedupe_session.json" in
            let cl := build_clusters (duplicates st) in
            let json_data :=
              {| timestamp := now_json inp;
                 source_directory := src_dir inp;
                 output_directory := out_dir inp;
                 trash_directory := trash_dir;
                 total_scanned := total_files;
                 total_kept := dict_len (kept st);
                 total_duplicates := dict_len (duplicates st);
                 hash_method := "phash";
                 hash_distance_threshold := HASH_DISTANCE_THRESHOLD;
                 clusters := cl |} in
            write_file json_path (SessionJson json_data) >>
            let report_path :=
              path_join (out_dir inp) "dedupe_session_report.md" in
            write_file report_path
              (SessionReport
                 (report_chunks (now_report inp) (src_dir inp) (out_dir inp)
                    trash_dir total_files (dict_len (kept st))
                    (dict_len (duplicates st)) cl)) >>
            ret json_data
        end
    end.

(** The records the hashing loop produces when it is not cancelled. *)
Definition hashed (w : world) (images : list string) : list ImageRecord :=
  omap (read_image w) images.

(** The enumerated paths that fail to open or decode. *)
Definition decode_failures (w : world) (images : list string) : list string :=
  filter (λ p, read_image w p = None) images.
End Run.

(** ** Sample instances

    A POSIX-like reading of the path functions and a table-driven decoder,
    used to run the definitions on concrete inputs. *)

Module Sample.
Definition record (p : string) (h w ht : Z) : ImageRecord :=
  {| path := p; hash := h; resolution := (w, ht);
     resolution_str := format_resolution (Some (w, ht)) |}.

Definition slash : Ascii.ascii := Ascii.ascii_of_nat 47.
Definition dot : Ascii.ascii := Ascii.ascii_of_nat 46.

Definition join (a b : string) : string := a +:+ "/" +:+ b.

Fixpoint after_last (sep : Ascii.ascii) (s acc : string) : string :=
  match s with
  | EmptyString => acc
  | String c s' =>
      if decide (c = sep) then after_last sep s' EmptyString
      else after_last sep s' (acc +:+ String c EmptyString)
  end.

Definition basename (p : string) : string := after_last slash p EmptyString.

Fixpoint has (c : Ascii.ascii) (s : string) : bool :=
  match s with
  | EmptyString => false
  | String c' s' => bool_decide (c = c') || has c s'
  end.

Definition splitext (f : string) : string * string :=
  if has dot f
  then let e := "." +:+ after_last dot f EmptyString in
       (String.substring 0 (String.length f - String.length e) f, e)
  else (f, EmptyString).

Definition lower_char (c : Ascii.ascii) : Ascii.ascii :=
  let n := Ascii.nat_of_ascii c in
  if ((65 <=? n) && (n <=? 90))%nat then Ascii.ascii_of_nat (n + 32) else c.

Fixpoint lower (s : string) : string :=
  match s with
  | EmptyString => EmptyString
  | String c s' => String (lower_char c) (lower s')
  end.

(** A source tree given by its listing. *)
Definition walk (listing : list (string * list string * list string))
    (w : world) (rootdir : string) : list (string * list string * list string) :=
  listing.

(** Decodable bytes are of the form given in [table]. *)
Definition decode (table : dict (Z * Z * Z)) (c : content) : option (Z * Z * Z) :=
  match c with
  | FileBytes b => dict_get b table
  | _ => None
  end.

(** Record lists on which the pass is run below. *)
Definition later_demoted : list ImageRecord :=
  [record "/src/x.jpg" 0 10 10; record "/src/a.jpg" 1023 30 30;
   record "/src/b.jpg" 31 20 20].

Definition stale_anchor : list ImageRecord :=
  [record "/src/a.jpg" 0 20 20; record "/src/b.jpg" 0 30 30;
   record "/src/c.jpg" 0 10 10].

Definition twice_removed : list ImageRecord :=
  [record "/src/x.jpg" 0 10 10; record "/src/a.jpg" 0 30 30;
   record "/src/b.jpg" 0 20 20].

Definition displaced : list ImageRecord :=
  [record "/src/a.jpg" 0 30 30; record "/src/b.jpg" 0 20 20;
   record "/src/c.jpg" 0 40 40].

Definition platform (listing : list (string * list string * list string))
    (table : dict (Z * Z * Z)) : Platform :=
  Build_Platform join basename splitext lower (walk listing) (decode table).

Definition run (listing : list (string * list string * list string))
    (table : dict (Z * Z * Z)) : run_input → action session :=
  @dedupe_process (platform listing table).

(** Worlds and inputs on which the run is evaluated below. *)
Definition table : dict (Z * Z * Z) :=
  [("A", (1920, 1080, 0)); ("B", (1280, 720, 7))].

Definition input : run_input :=
  {| src_dir := "/src"; out_dir := "/out"; running := λ _, true;
     now_json := "2024-01-01T00:00:00"; now_report := "2024-01-01T00:00:01" |}.

(** Two decodable images that are near duplicates. *)
Definition clean_listing : list (string * list string * list string) :=
  [("/src", [], ["a.jpg"; "b.PNG"; "notes.txt"])].
Definition clean_world : world :=
  {| files := {[ "/src/a.jpg" := FileBytes "A"; "/src/b.PNG" := FileBytes "B";
                 "/src/notes.txt" := FileBytes "A" ]};
     dirs := {[ "/src"; "/out" ]} |}.

(** One decodable image and one file that fails to decode. *)
Definition failing_listing : list (string * list string * list string) :=
  [("/src", [], ["a.jpg"; "c.gif"])].
Definition failing_world : world :=
  {| files := {[ "/src/a.jpg" := FileBytes "A"; "/src/c.gif" := FileBytes "junk" ]};
     dirs := {[ "/src"; "/out" ]} |}.

(** No file with an image extension. *)
Definition empty_listing : list (string * list string * list string) :=
  [("/src", ["sub"], ["notes.txt"]); ("/src/sub", [], ["README"])].
Definition empty_world : world :=
  {| files := {[ "/src/notes.txt" := FileBytes "A"; "/src/sub/README" := FileBytes "B" ]};
     dirs := {[ "/src"; "/src/sub"; "/out" ]} |}.

(** A run whose flag is found cleared at the third read. *)
Definition cancelling_input : run_input :=
  {| src_dir := "/src"; out_dir := "/out";
     running := λ t, bool_decide (t < 2)%nat;
     now_json := "2024-01-01T00:00:00"; now_report := "2024-01-01T00:00:01" |}.


(** An output directory that already holds a file named as a kept one. *)
Definition occupied_world : world :=
  {| files := {[ "/src/a.jpg" := FileBytes "A"; "/out/a.jpg" := FileBytes "earlier" ]};
     dirs := {[ "/src"; "/out" ]} |}.
End Sample.

(** ** Predicates on the state of the pass *)

(** [p] is a key of the kept map or of the duplicates map. *)
Definition decided (p : string) (st : cluster_state) : Prop :=
  p ∈ dict_keys (kept st) ∨ p ∈ dict_keys (duplicates st).

(** [p] is a key of both maps. *)
Definition in_both (p : string) (st : cluster_state) : Prop :=
  p ∈ dict_keys (kept st) ∧ p ∈ dict_keys (duplicates st).

(** [p] is a key of the duplicates map and not of the kept map. *)
Definition gone (p : string) (st : cluster_state) : Prop :=
  p ∈ dict_keys (duplicates st) ∧ p ∉ dict_keys (kept st).

(** No key occurs twice in either map. *)
Definition well_keyed (st : cluster_state) : Prop :=
  NoDup (dict_keys (kept st)) ∧ NoDup (dict_keys (duplicates st)).

(** Every key of either map is one of [ps]. *)
Definition keys_within (ps : list string) (st : cluster_state) : Prop :=
  (∀ p, p ∈ dict_keys (kept st) → p ∈ ps) ∧
  (∀ p, p ∈ dict_keys (duplicates st) → p ∈ ps).

(** The state after a run on two records in which [winner] stays and
    [loser] is removed at distance [d]. *)
Definition pair_outcome (winner loser : ImageRecord) (d : Z) : cluster_state :=
  {| kept := [(path winner, winner)];
     duplicates := [(path loser, (path winner, d))] |}.

(** The assignments of a trace applied in order to a duplicates map. *)
Definition replay (d : dict DuplicateEdge) (tr : list recording)
    : dict DuplicateEdge :=
  foldl (λ d r, dict_set (removed r) (edge r) d) d tr.

(** [A] occurs in [records] before [B]: the pairs the pass can compare. *)
Definition ordered_pair (records : list ImageRecord) (A B : ImageRecord) : Prop :=
  ∃ pre later, records = pre ++ A :: later ∧ B ∈ later.

(** The entry [e] of the duplicates map comes from the comparison of the
    anchor [A] with the later record [B]. *)
Definition edge_from (A B : ImageRecord) (e : string * DuplicateEdge) : Prop :=
  hash_sub (hash A) (hash B) ≤ HASH_DISTANCE_THRESHOLD ∧
  resolution A ≠ resolution B ∧
  ((e = (path B, (path A, hash_sub (hash A) (hash B))) ∧
    area (resolution B) ≤ area (resolution A)) ∨
   (e = (path A, (path B, hash_sub (hash A) (hash B))) ∧
    area (resolution A) < area (resolution B))).

(** Every pair of records the pass can compare is too far apart or has one
    and the same resolution. *)
Definition independent (records : list ImageRecord) : Prop :=
  ∀ A B, ordered_pair records A B →
    HASH_DISTANCE_THRESHOLD < hash_sub (hash A) (hash B) ∨
    resolution A = resolution B.

(** The character [c] occurs in [s]. *)
Fixpoint occurs (c : Ascii.ascii) (s : string) : bool :=
  match s with
  | EmptyString => false
  | String c' s' => bool_decide (c = c') || occurs c s'
  end.

(** The separator that [format_resolution] puts between width and height. *)
Definition times_char : Ascii.ascii := Ascii.ascii_of_nat 120.

(** [p] is listed in the cluster of [k]. *)
Definition in_cluster (k p : string) (cl : dict (list string)) : Prop :=
  ∃ l, dict_get k cl = Some l ∧ p ∈ l.

(** The number of paths listed in all clusters. *)
Definition cluster_total (cl : dict (list string)) : nat :=
  sum_list (length <$> dict_values cl).

(** What a row of the duplicate log says about the duplicates map. *)
Definition row_entry (row : duplicate_row) : string * DuplicateEdge :=
  (row_removed row, (row_kept row, row_distance row)).

(** ** Predicates on actions and on the file system *)

(** [m] never leaves the function in the way [s]. *)
Definition avoids {A} (s : stop) (m : action A) : Prop :=
  ∀ w, (m w).1 ≠ inl s.

(** Nothing that exists in [w] is missing in [w']. *)
Definition grows (w w' : world) : Prop :=
  (∀ p, is_Some (files w !! p) → is_Some (files w' !! p)) ∧
  (∀ p, p ∈ dirs w → p ∈ dirs w').

(** [m] removes no file and no directory, however it ends. *)
Definition growing {A} (m : action A) : Prop := ∀ w, grows w (m w).2.

(** [m] leaves the content of every file outside [T] as it is, however it
    ends. *)
Definition frames {A} (T : string → Prop) (m : action A) : Prop :=
  ∀ w p c, files w !! p = Some c → ¬ T p → files (m w).2 !! p = Some c.

Section Targets.
Context `{Platform}.

(** Where [copy2] may write when asked to copy [src] to [dst]. *)
Definition copy_target (src dst p : string) : Prop :=
  p = dst ∨ p = path_join dst (basename src).

(** The paths under which a run may write over an existing file: the trash
    location of some source path and the four artifacts. *)
Definition run_target (out_dir p : string) : Prop :=
  let trash_dir := path_join out_dir "trash" in
  (∃ src, copy_target src (path_join trash_dir (basename src)) p) ∨
  p = path_join out_dir "duplicate_log.csv" ∨
  p = path_join trash_dir "duplicate_details.csv" ∨
  p = path_join out_dir "dedupe_session.json" ∨
  p = path_join out_dir "dedupe_session_report.md".
End Targets.

(** * Properties *)

(** ** Dictionaries *)

Section DictFacts.
Context {V : Type}.
Implicit Types (d : dict V) (k : string) (v : V).

Lemma dict_contains_true k d : dict_contains k d = true ↔ k ∈ dict_keys d.
Proof.
  unfold dict_contains, dict_keys.
  induction d as [|[k' v'] d IH]; simpl.
  - split; [done | by intros ?%elem_of_nil].
  - destruct (decide (k = k')) as [->|Hne].
    + split; [intros _; left | done].
    + rewrite IH. split; [by right | by intros [?|?]%elem_of_cons].
Qed.

Lemma dict_contains_false k d : dict_contains k d = false ↔ k ∉ dict_keys d.
Proof.
  rewrite <- dict_contains_true. destruct (dict_contains k d); split; auto; try discriminate; intros H; exfalso; apply H; tauto.
Qed.

Lemma dict_keys_set k v d k' :
  k' ∈ dict_keys (dict_set k v d) ↔ k' = k ∨ k' ∈ dict_keys d.
Proof.
  unfold dict_keys. induction d as [|[k1 v1] d IH]; simpl.
  - set_solver.
  - destruct (decide (k = k1)) as [->|Hne]; simpl.
    + set_solver.
    + rewrite !elem_of_cons, IH. tauto.
Qed.

Lemma dict_keys_del_incl k d k' :
  k' ∈ dict_keys (dict_del k d) → k' ∈ dict_keys d.
Proof.
  unfold dict_keys. induction d as [|[k1 v1] d IH]; simpl; [done|].
  destruct (decide (k = k1)); simpl; set_solver.
Qed.

Lemma dict_keys_del_ne k d k' :
  k' ≠ k → k' ∈ dict_keys d → k' ∈ dict_keys (dict_del k d).
Proof.
  unfold dict_keys. intros Hne. induction d as [|[k1 v1] d IH]; simpl; [done|].
  destruct (decide (k = k1)) as [->|]; simpl; set_solver.
Qed.

Lemma dict_set_NoDup k v d :
  NoDup (dict_keys d) → NoDup (dict_keys (dict_set k v d)).
Proof.
  induction d as [|[k1 v1] d IH]; simpl.
  - intros _. apply NoDup_singleton.
  - unfold dict_keys in *. simpl. intros [Hk1 Hd]%NoDup_cons.
    destruct (decide (k = k1)) as [->|Hne]; simpl.
    + by apply NoDup_cons.
    + apply NoDup_cons. split; [|by apply IH].
      intros [?|?]%dict_keys_set; [congruence | done].
Qed.

Lemma dict_del_NoDup k d :
  NoDup (dict_keys d) → NoDup (dict_keys (dict_del k d)).
Proof.
  induction d as [|[k1 v1] d IH]; simpl; [done|].
  unfold dict_keys in *. simpl. intros [Hk1 Hd]%NoDup_cons.
  destruct (decide (k = k1)); simpl; [done|].
  apply NoDup_cons. split; [|by apply IH].
  intros ?%dict_keys_del_incl. done.
Qed.

Lemma dict_del_absent k d :
  NoDup (dict_keys d) → k ∉ dict_keys (dict_del k d).
Proof.
  induction d as [|[k1 v1] d IH]; simpl; [intros _ ?%elem_of_nil; done|].
  unfold dict_keys in *. simpl. intros [Hk1 Hd]%NoDup_cons.
  destruct (decide (k = k1)) as [->|Hne]; simpl; [done|].
  intros [?|?]%elem_of_cons; [done | by apply IH].
Qed.

Lemma dict_keys_setdefault k v d k' :
  k' ∈ dict_keys (dict_setdefault k v d) ↔ k' = k ∨ k' ∈ dict_keys d.
Proof.
  unfold dict_setdefault. destruct (dict_contains k d) eqn:Hc.
  - apply dict_contains_true in Hc. split; [auto | intros [->|?]; auto].
  - apply dict_keys_set.
Qed.

Lemma dict_setdefault_NoDup k v d :
  NoDup (dict_keys d) → NoDup (dict_keys (dict_setdefault k v d)).
Proof.
  unfold dict_setdefault. destruct (dict_contains k d); [done|].
  apply dict_set_NoDup.
Qed.

Lemma dict_get_set_eq k v d : dict_get k (dict_set k v d) = Some v.
Proof.
  induction d as [|[k1 v1] d IH]; simpl.
  - by rewrite decide_True.
  - destruct (decide (k = k1)) as [->|Hne]; simpl.
    + by rewrite decide_True.
    + by rewrite decide_False.
Qed.

Lemma dict_len_keys d : dict_len d = Z.of_nat (length (dict_keys d)).
Proof. unfold dict_len, dict_keys. by rewrite length_fmap. Qed.
End DictFacts.

(** ** The comparison pass: what every run preserves *)

Ltac inner_cases A B st :=
  unfold inner_body;
  destruct (dict_contains (path B) (duplicates st)) eqn:HBdup;
  [| destruct (hash_sub (hash A) (hash B) <=? HASH_DISTANCE_THRESHOLD) eqn:Hdist;
     [ destruct (resolution_eqb (resolution A) (resolution B)) eqn:Hres;
       [| destruct (area (resolution A) >=? area (resolution B)) eqn:Harea ]
     |] ].

Lemma inner_body_decided A B st p :
  decided p st → decided p (inner_body A B st).
Proof.
  unfold decided. intros Hp. inner_cases A B st; simpl; try done.
  - destruct Hp as [Hp|Hp]; [by left | right]. apply dict_keys_set. by right.
  - destruct (decide (p = path A)) as [->|Hne].
    + right. apply dict_keys_set. by left.
    + destruct Hp as [Hp|Hp].
      * left. apply dict_keys_set. right.
        destruct (dict_contains (path A) (kept st)); [|done].
        by apply dict_keys_del_ne.
      * right. apply dict_keys_set. by right.
Qed.

Lemma inner_loop_decided A later st p :
  decided p st → decided p (inner_loop A later st).
Proof.
  unfold inner_loop. revert st.
  induction later as [|B later IH]; intros st Hp; simpl; [done|].
  apply IH. by apply inner_body_decided.
Qed.

Lemma outer_body_decided A later st p :
  decided p st → decided p (outer_body A later st).
Proof.
  unfold outer_body. intros Hp.
  destruct (dict_contains (path A) (duplicates st)); [done|].
  apply inner_loop_decided. destruct Hp as [Hp|Hp]; [left | by right].
  simpl. apply dict_keys_setdefault. by right.
Qed.

Lemma outer_body_anchor A later st : decided (path A) (outer_body A later st).
Proof.
  unfold outer_body.
  destruct (dict_contains (path A) (duplicates st)) eqn:Hc.
  - right. by apply dict_contains_true.
  - apply inner_loop_decided. left. simpl. apply dict_keys_setdefault. by left.
Qed.

Lemma cluster_from_decided records st p :
  decided p st → decided p (cluster_from records st).
Proof.
  revert st. induction records as [|A later IH]; intros st Hp; simpl; [done|].
  apply IH. by apply outer_body_decided.
Qed.

(** Every record of the list ends as a key of one of the two maps. *)
Lemma cluster_from_covers records st r :
  r ∈ records → decided (path r) (cluster_from records st).
Proof.
  revert st. induction records as [|A later IH]; intros st Hr; simpl.
  - by apply elem_of_nil in Hr.
  - apply elem_of_cons in Hr as [->|Hr]; [|by apply IH].
    apply cluster_from_decided, outer_body_anchor.
Qed.

Lemma inner_body_well_keyed A B st :
  well_keyed st → well_keyed (inner_body A B st).
Proof.
  unfold well_keyed. intros [Hk Hd]. inner_cases A B st; simpl; try done.
  - split; [done | by apply dict_set_NoDup].
  - split; apply dict_set_NoDup; [|done].
    destruct (dict_contains (path A) (kept st)); [by apply dict_del_NoDup | done].
Qed.

Lemma inner_loop_well_keyed A later st :
  well_keyed st → well_keyed (inner_loop A later st).
Proof.
  unfold inner_loop. revert st.
  induction later as [|B later IH]; intros st H; simpl; [done|].
  apply IH. by apply inner_body_well_keyed.
Qed.

Lemma outer_body_well_keyed A later st :
  well_keyed st → well_keyed (outer_body A later st).
Proof.
  unfold outer_body. intros [Hk Hd].
  destruct (dict_contains (path A) (duplicates st)); [done|].
  apply inner_loop_well_keyed. split; simpl; [|done].
  by apply dict_setdefault_NoDup.
Qed.

Lemma cluster_from_well_keyed records st :
  well_keyed st → well_keyed (cluster_from records st).
Proof.
  revert st. induction records as [|A later IH]; intros st H; simpl; [done|].
  apply IH. by apply outer_body_well_keyed.
Qed.

Lemma inner_body_keys_within ps A B st :
  path A ∈ ps → path B ∈ ps → keys_within ps st →
  keys_within ps (inner_body A B st).
Proof.
  unfold keys_within. intros HA HB [Hk Hd]. inner_cases A B st; simpl; try done.
  - split; [done|]. intros p [->|Hp]%dict_keys_set; auto.
  - split.
    + intros p [->|Hp]%dict_keys_set; [done|]. apply Hk.
      destruct (dict_contains (path A) (kept st)); [|done].
      by apply dict_keys_del_incl in Hp.
    + intros p [->|Hp]%dict_keys_set; auto.
Qed.

Lemma inner_loop_keys_within ps A later st :
  path A ∈ ps → (∀ B, B ∈ later → path B ∈ ps) → keys_within ps st →
  keys_within ps (inner_loop A later st).
Proof.
  unfold inner_loop. intros HA. revert st.
  induction later as [|B later IH]; intros st Hl H; simpl; [done|].
  apply IH.
  - intros B' HB'. apply Hl. by right.
  - apply inner_body_keys_within; [done | apply Hl; by left | done].
Qed.

Lemma outer_body_keys_within ps A later st :
  path A ∈ ps → (∀ B, B ∈ later → path B ∈ ps) → keys_within ps st →
  keys_within ps (outer_body A later st).
Proof.
  unfold outer_body. intros HA Hl [Hk Hd].
  destruct (dict_contains (path A) (duplicates st)); [done|].
  apply inner_loop_keys_within; [done..|]. split; simpl; [|done].
  intros p [->|Hp]%dict_keys_setdefault; auto.
Qed.

Lemma cluster_from_keys_within ps records st :
  (∀ r, r ∈ records → path r ∈ ps) → keys_within ps st →
  keys_within ps (cluster_from records st).
Proof.
  revert st. induction records as [|A later IH]; intros st Hl H; simpl; [done|].
  apply IH.
  - intros r Hr. apply Hl. by right.
  - apply outer_body_keys_within; [apply Hl; by left | | done].
    intros B HB. apply Hl. by right.
Qed.

(** With distinct paths and no path in both maps, the two maps together
    have as many entries as there are records. *)
Lemma cluster_count records :
  NoDup (path <$> records) →
  (∀ p, ¬ in_both p (cluster records)) →
  dict_len (kept (cluster records)) + dict_len (duplicates (cluster records))
  = Z.of_nat (length records).
Proof.
  intros Hnd Hdisj. unfold cluster in *.
  destruct (cluster_from_well_keyed records empty_state) as [HK HD].
  { split; apply NoDup_nil_2. }
  destruct (cluster_from_keys_within (path <$> records) records empty_state)
    as [HKin HDin].
  { intros r Hr. by apply list_elem_of_fmap_2. }
  { split; intros p Hp; by apply elem_of_nil in Hp. }
  set (st := cluster_from records empty_state) in *.
  assert (Hle : (length (dict_keys (kept st) ++ dict_keys (duplicates st))
                 ≤ length (path <$> records))%nat).
  { apply submseteq_length, NoDup_submseteq.
    - apply NoDup_app. split; [done|]. split; [|done].
      intros p Hk Hd. by apply (Hdisj p).
    - intros p [Hp|Hp]%elem_of_app; auto. }
  assert (Hge : (length (path <$> records)
                 ≤ length (dict_keys (kept st) ++ dict_keys (duplicates st)))%nat).
  { apply submseteq_length, NoDup_submseteq; [done|].
    intros p (r & -> & Hr)%list_elem_of_fmap_1. apply elem_of_app.
    by apply cluster_from_covers. }
  rewrite length_app, length_fmap in *. rewrite !dict_len_keys. lia.
Qed.

(** ** The comparison of one pair *)

Lemma resolution_eqb_true r1 r2 : resolution_eqb r1 r2 = true ↔ r1 = r2.
Proof.
  unfold resolution_eqb. destruct r1 as [w1 h1], r2 as [w2 h2]; simpl.
  rewrite andb_true_iff, !Z.eqb_eq. split; [intros [-> ->]; done | by intros [= -> ->]].
Qed.

Lemma resolution_eqb_false r1 r2 : resolution_eqb r1 r2 = false ↔ r1 ≠ r2.
Proof.
  rewrite <- resolution_eqb_true. destruct (resolution_eqb r1 r2); split;
    (done || intros H; try done; exfalso; by apply H).
Qed.

(** [inner_body] makes exactly the assignment that [recorded] names. *)
Lemma inner_body_recorded A B st :
  duplicates (inner_body A B st) =
  match recorded A B st with
  | Some r => dict_set (removed r) (edge r) (duplicates st)
  | None => duplicates st
  end.
Proof. unfold recorded. inner_cases A B st; done. Qed.

Lemma recorded_before A B st r : recorded A B st = Some r → before r = st.
Proof.
  unfold recorded. intros H.
  repeat match type of H with
         | (if ?c then _ else _) = _ => destruct c
         | (let _ := _ in _) = _ => simpl in H
         end; by simplify_eq.
Qed.

Lemma inner_body_far A B st :
  HASH_DISTANCE_THRESHOLD < hash_sub (hash A) (hash B) →
  inner_body A B st = st ∧ recorded A B st = None.
Proof.
  intros H%Z.leb_gt. unfold inner_body, recorded. rewrite H.
  by destruct (dict_contains (path B) (duplicates st)).
Qed.

Lemma inner_body_same_resolution A B st :
  resolution A = resolution B →
  inner_body A B st = st ∧ recorded A B st = None.
Proof.
  intros H%resolution_eqb_true. unfold inner_body, recorded. rewrite H.
  destruct (dict_contains (path B) (duplicates st)); [done|].
  by destruct (_ <=? _).
Qed.

Lemma inner_body_demotes_later A B st :
  dict_contains (path B) (duplicates st) = false →
  hash_sub (hash A) (hash B) ≤ HASH_DISTANCE_THRESHOLD →
  resolution A ≠ resolution B →
  area (resolution B) ≤ area (resolution A) →
  inner_body A B st =
    {| kept := kept st;
       duplicates :=
         dict_set (path B) (path A, hash_sub (hash A) (hash B)) (duplicates st) |}
  ∧ recorded A B st =
    Some {| removed := path B; edge := (path A, hash_sub (hash A) (hash B));
            before := st |}.
Proof.
  intros HB Hd%Z.leb_le Hr%resolution_eqb_false Ha%Z.geb_le.
  unfold inner_body, recorded. by rewrite HB, Hd, Hr, Ha.
Qed.

Lemma inner_body_demotes_anchor A B st :
  dict_contains (path B) (duplicates st) = false →
  hash_sub (hash A) (hash B) ≤ HASH_DISTANCE_THRESHOLD →
  resolution A ≠ resolution B →
  area (resolution A) < area (resolution B) →
  inner_body A B st =
    {| kept :=
         dict_set (path B) B
           (if dict_contains (path A) (kept st)
            then dict_del (path A) (kept st) else kept st);
       duplicates :=
         dict_set (path A) (path B, hash_sub (hash A) (hash B)) (duplicates st) |}
  ∧ recorded A B st =
    Some {| removed := path A; edge := (path B, hash_sub (hash A) (hash B));
            before := st |}.
Proof.
  intros HB Hd%Z.leb_le Hr%resolution_eqb_false Ha.
  assert (Hg : (area (resolution A) >=? area (resolution B)) = false).
  { rewrite Z.geb_leb. apply Z.leb_gt. lia. }
  unfold inner_body, recorded. by rewrite HB, Hd, Hr, Hg.
Qed.

(** A run on two records is one comparison followed by the turn of the
    second record. *)
Lemma cluster_pair A B :
  cluster [A; B] =
  outer_body B [] (inner_body A B {| kept := [(path A, A)]; duplicates := [] |}).
Proof. reflexivity. Qed.

(** ** Edges recorded by a run *)

Lemma inner_trace_replay A later st :
  duplicates (inner_loop A later st) = replay (duplicates st) (inner_trace A later st).
Proof.
  unfold inner_loop, replay. revert st.
  induction later as [|B later IH]; intros st; simpl; [done|].
  rewrite IH, foldl_app, inner_body_recorded.
  by destruct (recorded A B st).
Qed.

(** The duplicates map at the end of a pass is the result of the recorded
    assignments, made in the order of the trace. *)
Lemma trace_from_replay records st :
  duplicates (cluster_from records st) = replay (duplicates st) (trace_from records st).
Proof.
  revert st. induction records as [|A later IH]; intros st; simpl; [done|].
  rewrite IH. unfold replay. rewrite foldl_app. f_equal.
  unfold outer_body, outer_trace.
  destruct (dict_contains (path A) (duplicates st)); [done|].
  by rewrite inner_trace_replay.
Qed.

(** An edge names a removed path as kept only in the branch that removes
    the later record, the anchor having been removed before. *)
Lemma recorded_towards_removed A B st r :
  recorded A B st = Some r →
  dict_contains (edge r).1 (duplicates (before r)) = true →
  removed r = path B ∧ (edge r).1 = path A ∧
  dict_contains (path A) (duplicates st) = true.
Proof.
  unfold recorded.
  destruct (dict_contains (path B) (duplicates st)) eqn:HB; [done|].
  destruct (_ <=? _); [|done].
  destruct (resolution_eqb _ _); [done|].
  destruct (_ >=? _); intros [= <-]; simpl; [done|].
  by rewrite HB.
Qed.

(** A path that has left the kept map for the duplicates map does not come
    back into the kept map. *)
Lemma inner_body_gone A B st p : gone p st → gone p (inner_body A B st).
Proof.
  unfold gone. intros [Hd Hk]. inner_cases A B st; simpl; try done.
  - split; [|done]. apply dict_keys_set. by right.
  - split; [apply dict_keys_set; by right|].
    intros [->|Hp]%dict_keys_set.
    + apply dict_contains_false in HBdup. done.
    + apply Hk. destruct (dict_contains (path A) (kept st)); [|done].
      by apply dict_keys_del_incl in Hp.
Qed.

Lemma inner_loop_gone A later st p : gone p st → gone p (inner_loop A later st).
Proof.
  unfold inner_loop. revert st.
  induction later as [|B later IH]; intros st Hp; simpl; [done|].
  apply IH. by apply inner_body_gone.
Qed.

Lemma outer_body_gone A later st p : gone p st → gone p (outer_body A later st).
Proof.
  unfold outer_body. intros [Hd Hk].
  destruct (dict_contains (path A) (duplicates st)) eqn:HA; [done|].
  apply inner_loop_gone. split; simpl; [done|].
  intros [->|Hp]%dict_keys_setdefault; [|done].
  by apply dict_contains_false in HA.
Qed.

Lemma cluster_from_gone records st p :
  gone p st → gone p (cluster_from records st).
Proof.
  revert st. induction records as [|A later IH]; intros st Hp; simpl; [done|].
  apply IH. by apply outer_body_gone.
Qed.

(** C1: on three records with distinct paths the pass ends with one path in
    both maps.  [x] is removed in favour of [b], which enters the kept map;
    [a], not close to [x], then removes [b], and the branch that removes the
    later record does not take it out of the kept map. *)
Theorem later_record_removed_but_still_kept :
  NoDup (path <$> Sample.later_demoted) ∧
  cluster Sample.later_demoted =
    {| kept := [("/src/b.jpg", Sample.record "/src/b.jpg" 31 20 20);
                ("/src/a.jpg", Sample.record "/src/a.jpg" 1023 30 30)];
       duplicates := [("/src/x.jpg", ("/src/b.jpg", 5));
                      ("/src/b.jpg", ("/src/a.jpg", 5))] |} ∧
  dict_contains "/src/b.jpg" (kept (cluster Sample.later_demoted)) = true ∧
  dict_contains "/src/b.jpg" (duplicates (cluster Sample.later_demoted)) = true.
Proof.
  split; [|by vm_compute].
  apply (bool_decide_unpack _). by vm_compute.
Qed.

(** C2: an edge is recorded whose kept path is at that moment a key of the
    duplicates map.  The anchor [a] is removed in favour of [b]; the loop
    over the later records goes on with [a], and [c] is recorded as removed
    in favour of [a]. *)
Theorem edge_recorded_towards_removed_anchor :
  (λ r, (removed r, edge r, duplicates (before r))) <$> cluster_trace Sample.stale_anchor =
    [("/src/a.jpg", ("/src/b.jpg", 0), []);
     ("/src/c.jpg", ("/src/a.jpg", 0), [("/src/a.jpg", ("/src/b.jpg", 0))])] ∧
  existsb (λ r, dict_contains (edge r).1 (duplicates (before r)))
    (cluster_trace Sample.stale_anchor) = true.
Proof. by vm_compute. Qed.

(** C3: two edges are recorded for one removed path, the second replacing
    the first.  The anchor [x] is removed in favour of [a], and later in the
    same loop again in favour of [b]. *)
Theorem removed_path_recorded_twice :
  (λ r, (removed r, edge r)) <$> cluster_trace Sample.twice_removed =
    [("/src/x.jpg", ("/src/a.jpg", 0));
     ("/src/x.jpg", ("/src/b.jpg", 0));
     ("/src/b.jpg", ("/src/a.jpg", 0))] ∧
  dict_get "/src/x.jpg" (duplicates (cluster Sample.twice_removed))
    = Some ("/src/b.jpg", 0).
Proof. by vm_compute. Qed.

(** ** Runs on two records *)

Lemma outer_body_last B st :
  outer_body B [] st =
  if dict_contains (path B) (duplicates st) then st
  else {| kept := dict_setdefault (path B) B (kept st);
          duplicates := duplicates st |}.
Proof. reflexivity. Qed.

Lemma outer_body_last_duplicates B st :
  duplicates (outer_body B [] st) = duplicates st.
Proof. rewrite outer_body_last. by destruct (dict_contains _ _). Qed.

Lemma outer_trace_last B st : outer_trace B [] st = [].
Proof. unfold outer_trace. by destruct (dict_contains _ _). Qed.

Lemma dict_contains_head {V} k (v : V) d : dict_contains k ((k, v) :: d) = true.
Proof. unfold dict_contains. simpl. by rewrite decide_True. Qed.

Lemma dict_contains_single_ne {V} k k' (v : V) :
  k ≠ k' → dict_contains k [(k', v)] = false.
Proof. intros H. unfold dict_contains. simpl. by rewrite decide_False. Qed.

Lemma pair_later_removed A B :
  hash_sub (hash A) (hash B) ≤ HASH_DISTANCE_THRESHOLD →
  resolution A ≠ resolution B →
  area (resolution B) ≤ area (resolution A) →
  cluster [A; B] = pair_outcome A B (hash_sub (hash A) (hash B)).
Proof.
  intros Hd Hr Ha. rewrite cluster_pair.
  destruct (inner_body_demotes_later A B {| kept := [(path A, A)]; duplicates := [] |})
    as [-> _]; [done..|].
  rewrite outer_body_last. cbn [kept duplicates dict_set].
  by rewrite dict_contains_head.
Qed.

Lemma pair_anchor_removed A B :
  path A ≠ path B →
  hash_sub (hash A) (hash B) ≤ HASH_DISTANCE_THRESHOLD →
  resolution A ≠ resolution B →
  area (resolution A) < area (resolution B) →
  cluster [A; B] = pair_outcome B A (hash_sub (hash A) (hash B)).
Proof.
  intros Hp Hd Hr Ha. rewrite cluster_pair.
  destruct (inner_body_demotes_anchor A B {| kept := [(path A, A)]; duplicates := [] |})
    as [-> _]; [done..|].
  rewrite outer_body_last. cbn [kept duplicates dict_set].
  rewrite dict_contains_head. cbn [dict_del]. rewrite decide_True by done.
  cbn [dict_set]. rewrite dict_contains_single_ne by done.
  unfold dict_setdefault. by rewrite dict_contains_head.
Qed.

(** C5 (amended): in a run on exactly two records with distinct paths, a
    distance within the threshold and different resolutions, the record of
    strictly greater pixel area is the only one kept and the other is
    recorded as its duplicate; on equal areas the earlier record is the one
    kept. *)
Theorem tie_break_on_two_records A B :
  path A ≠ path B →
  hash_sub (hash A) (hash B) ≤ HASH_DISTANCE_THRESHOLD →
  resolution A ≠ resolution B →
  cluster [A; B] =
    if area (resolution A) <? area (resolution B)
    then pair_outcome B A (hash_sub (hash A) (hash B))
    else pair_outcome A B (hash_sub (hash A) (hash B)).
Proof.
  intros Hp Hd Hr.
  destruct (Z.ltb_spec (area (resolution A)) (area (resolution B))).
  - by apply pair_anchor_removed.
  - by apply pair_later_removed.
Qed.

Lemma tie_break_on_two_records_witness :
  cluster [Sample.record "/src/p.jpg" 0 40 30; Sample.record "/src/q.jpg" 3 30 40]
  = pair_outcome (Sample.record "/src/p.jpg" 0 40 30)
      (Sample.record "/src/q.jpg" 3 30 40) 2.
Proof.
  exact (tie_break_on_two_records
           (Sample.record "/src/p.jpg" 0 40 30) (Sample.record "/src/q.jpg" 3 30 40)
           ltac:(discriminate) ltac:(vm_compute; discriminate) ltac:(discriminate)).
Defined.

(** C5 as stated fails on three records: [a] and [b] are within the
    threshold, differ in resolution and [a] has the greater area, yet [a]
    does not end in the kept map, because [c] removes it later. *)
Lemma survivor_displaced_by_third_record :
  let a := Sample.record "/src/a.jpg" 0 30 30 in
  let b := Sample.record "/src/b.jpg" 0 20 20 in
  a ∈ Sample.displaced ∧ b ∈ Sample.displaced ∧
  NoDup (path <$> Sample.displaced) ∧
  hash_sub (hash a) (hash b) ≤ HASH_DISTANCE_THRESHOLD ∧
  resolution a ≠ resolution b ∧
  area (resolution b) < area (resolution a) ∧
  dict_contains (path a) (kept (cluster Sample.displaced)) = false ∧
  cluster Sample.displaced =
    {| kept := [("/src/c.jpg", Sample.record "/src/c.jpg" 0 40 40)];
       duplicates := [("/src/b.jpg", ("/src/a.jpg", 0));
                      ("/src/a.jpg", ("/src/c.jpg", 0))] |}.
Proof.
  simpl. split_and!; try by vm_compute.
  - unfold Sample.displaced. set_solver.
  - unfold Sample.displaced. set_solver.
  - apply (bool_decide_unpack _). by vm_compute.
Qed.

(** ** Cancellation *)

(** C6 (amended): the pass reads the flag at the head of every iteration of
    the loop over [i] and returns there when it is cleared; the loop over
    [j] reads no flag.  So the pass ends in the state of an uncancelled run
    exactly when every one of these reads finds the flag set, and otherwise
    the function returns without a result. *)
Theorem pass_completes_iff_flag_set_at_every_anchor running i records st :
  comparison_pass running i records st =
    if forallb running (seq i (length records))
    then Some (cluster_from records st) else None.
Proof.
  revert i st. induction records as [|A later IH]; intros i st; simpl; [done|].
  destruct (running i); simpl; [apply IH | done].
Qed.

(** C6 as stated fails: the pass has begun (the first read finds the flag
    set), cancellation is signalled during the first anchor's comparisons,
    and the pass returns at the second anchor instead of completing. *)
Lemma pass_stops_at_next_anchor :
  let running := λ t : nat, bool_decide (t = 0%nat) in
  let records := [Sample.record "/src/a.jpg" 0 30 30;
                  Sample.record "/src/b.jpg" 0 20 20] in
  running 0%nat = true ∧
  comparison_pass running 0 records empty_state = None ∧
  comparison_pass (λ _, true) 0 records empty_state = Some (cluster records) ∧
  comparison_pass running 0 records empty_state
    ≠ comparison_pass (λ _, true) 0 records empty_state.
Proof. by vm_compute. Qed.

(** ** The threshold and the resolution tie *)

Lemma pair_independent A B :
  inner_body A B {| kept := [(path A, A)]; duplicates := [] |}
    = {| kept := [(path A, A)]; duplicates := [] |} →
  cluster [A; B] =
    {| kept := dict_setdefault (path B) B [(path A, A)]; duplicates := [] |}.
Proof. intros H. rewrite cluster_pair, H. reflexivity. Qed.

(** C7: the threshold is inclusive.  For [A], [B] of different resolutions
    at distance exactly [HASH_DISTANCE_THRESHOLD], the comparison (reached
    with [B] not yet removed) records an edge between the two at that
    distance, and a run on the two ends with that one edge.  For [A'], [B']
    at distance [HASH_DISTANCE_THRESHOLD + 1] the comparison records nothing
    and changes nothing, and a run on the two ends with no edge and both
    kept. *)
Theorem threshold_is_inclusive A B st A' B' st' :
  resolution A ≠ resolution B →
  hash_sub (hash A) (hash B) = HASH_DISTANCE_THRESHOLD →
  dict_contains (path B) (duplicates st) = false →
  resolution A' ≠ resolution B' →
  hash_sub (hash A') (hash B') = HASH_DISTANCE_THRESHOLD + 1 →
  (∃ r, recorded A B st = Some r ∧
        ((removed r = path B ∧ edge r = (path A, HASH_DISTANCE_THRESHOLD)) ∨
         (removed r = path A ∧ edge r = (path B, HASH_DISTANCE_THRESHOLD))) ∧
        duplicates (inner_body A B st)
          = dict_set (removed r) (edge r) (duplicates st)) ∧
  (duplicates (cluster [A; B]) = [(path B, (path A, HASH_DISTANCE_THRESHOLD))] ∨
   duplicates (cluster [A; B]) = [(path A, (path B, HASH_DISTANCE_THRESHOLD))]) ∧
  recorded A' B' st' = None ∧
  inner_body A' B' st' = st' ∧
  cluster [A'; B'] =
    {| kept := dict_setdefault (path B') B' [(path A', A')]; duplicates := [] |}.
Proof.
  intros Hr Hd HB Hr' Hd'.
  assert (Hle : hash_sub (hash A) (hash B) ≤ HASH_DISTANCE_THRESHOLD) by lia.
  assert (Hfar : HASH_DISTANCE_THRESHOLD < hash_sub (hash A') (hash B')) by lia.
  split_and!.
  - destruct (Z.ltb_spec (area (resolution A)) (area (resolution B))) as [Ha|Ha].
    + destruct (inner_body_demotes_anchor A B st) as [Hi Hrec]; [done..|].
      eexists. split; [exact Hrec|]. rewrite Hi, <- Hd. simpl. auto.
    + destruct (inner_body_demotes_later A B st) as [Hi Hrec]; [done..|].
      eexists. split; [exact Hrec|]. rewrite Hi, <- Hd. simpl. auto.
  - rewrite cluster_pair, outer_body_last_duplicates.
    set (st0 := {| kept := [(path A, A)]; duplicates := [] |}).
    destruct (Z.ltb_spec (area (resolution A)) (area (resolution B))) as [Ha|Ha].
    + destruct (inner_body_demotes_anchor A B st0) as [-> _]; [done..|].
      right. by rewrite Hd.
    + destruct (inner_body_demotes_later A B st0) as [-> _]; [done..|].
      left. by rewrite Hd.
  - by apply inner_body_far.
  - by apply inner_body_far.
  - apply pair_independent. by apply inner_body_far.
Qed.

Lemma threshold_is_inclusive_witness :
  duplicates (cluster [Sample.record "/src/p.jpg" 0 40 30;
                       Sample.record "/src/q.jpg" 31 20 15])
    = [("/src/q.jpg", ("/src/p.jpg", 5))] ∧
  cluster [Sample.record "/src/p.jpg" 0 40 30; Sample.record "/src/r.jpg" 63 20 15]
    = {| kept := [("/src/p.jpg", Sample.record "/src/p.jpg" 0 40 30);
                  ("/src/r.jpg", Sample.record "/src/r.jpg" 63 20 15)];
         duplicates := [] |}.
Proof.
  destruct (threshold_is_inclusive
              (Sample.record "/src/p.jpg" 0 40 30) (Sample.record "/src/q.jpg" 31 20 15)
              empty_state
              (Sample.record "/src/p.jpg" 0 40 30) (Sample.record "/src/r.jpg" 63 20 15)
              empty_state
              ltac:(discriminate) ltac:(reflexivity) ltac:(reflexivity)
              ltac:(discriminate) ltac:(reflexivity))
    as (_ & [H|H] & _ & _ & H').
  - split; [exact H | exact H'].
  - split; [reflexivity | exact H'].
Defined.

(** C8: for two records within the threshold whose resolutions are the same
    pair, the comparison records no edge and leaves both maps as they are;
    a run on exactly two such records ends with both paths in the kept map
    and with an empty duplicates map. *)
Theorem same_resolution_keeps_both A B st :
  hash_sub (hash A) (hash B) ≤ HASH_DISTANCE_THRESHOLD →
  resolution A = resolution B →
  recorded A B st = None ∧
  inner_body A B st = st ∧
  cluster [A; B] =
    {| kept := dict_setdefault (path B) B [(path A, A)]; duplicates := [] |} ∧
  dict_contains (path A) (kept (cluster [A; B])) = true ∧
  dict_contains (path B) (kept (cluster [A; B])) = true ∧
  cluster_trace [A; B] = [].
Proof.
  intros _ Hr.
  assert (Hc : cluster [A; B] =
            {| kept := dict_setdefault (path B) B [(path A, A)]; duplicates := [] |}).
  { apply pair_independent. by apply inner_body_same_resolution. }
  split_and!; [by apply inner_body_same_resolution.. | done | | |].
  - rewrite Hc. apply dict_contains_true, dict_keys_setdefault. right.
    by apply list_elem_of_singleton.
  - rewrite Hc. apply dict_contains_true, dict_keys_setdefault. by left.
  - unfold cluster_trace. cbn [trace_from]. rewrite outer_trace_last.
    unfold outer_trace. cbn [duplicates kept empty_state inner_trace].
    destruct (inner_body_same_resolution A B
                {| kept := dict_setdefault (path A) A []; duplicates := [] |} Hr)
      as [_ ->].
    reflexivity.
Qed.

Lemma same_resolution_keeps_both_witness :
  cluster [Sample.record "/src/a.jpg" 0 1000 1000;
           Sample.record "/src/b.jpg" 3 1000 1000]
  = {| kept := [("/src/a.jpg", Sample.record "/src/a.jpg" 0 1000 1000);
                ("/src/b.jpg", Sample.record "/src/b.jpg" 3 1000 1000)];
       duplicates := [] |}.
Proof.
  exact (proj1 (proj2 (proj2
           (same_resolution_keeps_both
              (Sample.record "/src/a.jpg" 0 1000 1000)
              (Sample.record "/src/b.jpg" 3 1000 1000) empty_state
              ltac:(vm_compute; discriminate) ltac:(reflexivity))))).
Defined.

(** ** Actions *)

Lemma bind_inr {A B} (m : action A) (f : A → action B) w b w' :
  bind m f w = (inr b, w') →
  ∃ a w1, m w = (inr a, w1) ∧ f a w1 = (inr b, w').
Proof.
  unfold bind. destruct (m w) as [[s|a] w1]; [done|]. intros H. by exists a, w1.
Qed.

(** A path that exists keeps existing when files are only added. *)
Lemma path_exists_mono p w w' :
  (∀ q c, files w !! q = Some c → files w' !! q = Some c) →
  dirs w' = dirs w →
  path_exists p w = true → path_exists p w' = true.
Proof.
  unfold path_exists. intros Hf Hd. rewrite Hd.
  intros [H|H]%orb_true_iff; apply orb_true_iff; [left | by right].
  apply bool_decide_eq_true in H as [c Hc]. apply bool_decide_eq_true.
  exists c. by apply Hf.
Qed.

Lemma path_exists_false p w :
  path_exists p w = false → files w !! p = None ∧ p ∉ dirs w.
Proof.
  unfold path_exists. intros [H1 H2]%orb_false_iff.
  apply bool_decide_eq_false in H1, H2. split; [|done].
  destruct (files w !! p) eqn:E; [|done]. exfalso. apply H1. by eexists.
Qed.

Section RunFacts.
Context `{Platform}.

(** Onto a path that does not exist, [copy2] either raises and changes
    nothing or creates exactly that file. *)
Lemma copy2_fresh src dst w :
  path_exists dst w = false →
  (∃ e, copy2 src dst w = (inl e, w)) ∨
  (∃ c, files w !! src = Some c ∧
        copy2 src dst w =
          (inr (), {| files := <[dst := c]> (files w); dirs := dirs w |})).
Proof.
  intros [Hf Hd]%path_exists_false. unfold copy2, write_file.
  rewrite (bool_decide_eq_false_2 _ Hd).
  destruct (decide (src = dst)); [left; by eexists|].
  destruct (files w !! src) as [c|]; [right | left; by eexists].
  exists c. by rewrite (bool_decide_eq_false_2 _ Hd).
Qed.

Lemma copy_kept_skip out_dir k ks w :
  path_exists (path_join out_dir (basename (path k))) w = true →
  copy_kept out_dir (k :: ks) w = copy_kept out_dir ks w.
Proof.
  intros Hex. cbn [copy_kept]. unfold bind at 1, get_world. by rewrite Hex.
Qed.

Lemma copy_kept_copy out_dir k ks w :
  path_exists (path_join out_dir (basename (path k))) w = false →
  copy_kept out_dir (k :: ks) w =
  match copy2 (path k) (path_join out_dir (basename (path k))) w with
  | (inr _, w') => copy_kept out_dir ks w'
  | (inl s, w') => (inl s, w')
  end.
Proof.
  intros Hex. cbn [copy_kept]. unfold bind at 1, get_world. by rewrite Hex.
Qed.

Lemma copy_kept_extends out_dir ks w :
  (∀ p c, files w !! p = Some c →
          files (copy_kept out_dir ks w).2 !! p = Some c) ∧
  dirs (copy_kept out_dir ks w).2 = dirs w.
Proof.
  revert w. induction ks as [|k ks IH]; intros w; [done|].
  destruct (path_exists (path_join out_dir (basename (path k))) w) eqn:Hex.
  { rewrite copy_kept_skip by done. apply IH. }
  rewrite copy_kept_copy by done.
  destruct (copy2_fresh (path k) _ w Hex) as [[e ->]|(c & Hsrc & ->)]; [done|].
  apply path_exists_false in Hex as [Hnone _].
  destruct (IH {| files := <[path_join out_dir (basename (path k)) := c]> (files w);
                  dirs := dirs w |}) as [IH1 IH2].
  split; [|done]. intros p c' Hp. apply IH1. simpl.
  rewrite lookup_insert_ne; [done|]. intros Heq. rewrite <- Heq in Hp. congruence.
Qed.

Lemma copy_kept_again out_dir ks w :
  copy_kept out_dir ks (copy_kept out_dir ks w).2 = copy_kept out_dir ks w.
Proof.
  revert w. induction ks as [|k ks IH]; intros w; [done|].
  destruct (path_exists (path_join out_dir (basename (path k))) w) eqn:Hex.
  - rewrite (copy_kept_skip _ _ _ w) by done.
    destruct (copy_kept_extends out_dir ks w) as [H1 H2].
    rewrite copy_kept_skip; [apply IH|].
    by apply (path_exists_mono _ w).
  - rewrite (copy_kept_copy _ _ _ w) by done.
    destruct (copy2_fresh (path k) _ w Hex) as [[e He]|(c & Hsrc & Hc)].
    + rewrite He. cbn [snd]. rewrite copy_kept_copy by done. by rewrite He.
    + rewrite Hc. cbn [snd].
      set (w1 := {| files := <[path_join out_dir (basename (path k)) := c]> (files w);
                    dirs := dirs w |}).
      destruct (copy_kept_extends out_dir ks w1) as [H1 H2].
      rewrite copy_kept_skip; [apply IH|].
      apply (path_exists_mono _ w1); [done..|].
      unfold path_exists, w1. simpl. apply orb_true_iff. left.
      apply bool_decide_eq_true. exists c. apply lookup_insert_eq.
Qed.

(** C9: the copy of the kept images never overwrites.  Whatever the kept
    records and the state of the file system, every file that exists
    before the copy has the same content after it, no directory appears
    or disappears, and a second copy of the same records changes nothing:
    it ends in the state, and with the outcome, of the first. *)
Theorem kept_copy_never_overwrites out_dir ks w :
  (∀ p c, files w !! p = Some c →
          files (copy_kept out_dir ks w).2 !! p = Some c) ∧
  dirs (copy_kept out_dir ks w).2 = dirs w ∧
  copy_kept out_dir ks (copy_kept out_dir ks w).2 = copy_kept out_dir ks w.
Proof.
  destruct (copy_kept_extends out_dir ks w) as [H1 H2].
  split_and!; [done | done | apply copy_kept_again].
Qed.

(** *** The hashing loop and the totals *)

Lemma read_image_path w p r : read_image w p = Some r → path r = p.
Proof.
  unfold read_image. destruct (files w !! p) as [c|]; [|done].
  destruct (decode c) as [[[wd ht] ph]|]; [|done]. by intros [= <-].
Qed.

Lemma hashing_loop_Some running t w images acc hs :
  hashing_loop running t w images acc = Some hs →
  hs = acc ++ hashed w images.
Proof.
  unfold hashed. revert t acc.
  induction images as [|p images IH]; intros t acc; simpl.
  - intros [= <-]. by rewrite app_nil_r.
  - destruct (running t); [|done].
    destruct (read_image w p) as [r|]; intros Hs%IH; [|done].
    by rewrite Hs, <- app_assoc.
Qed.

Lemma comparison_pass_Some running i records st st' :
  comparison_pass running i records st = Some st' →
  st' = cluster_from records st.
Proof.
  revert i st. induction records as [|A later IH]; intros i st; simpl.
  - by intros [= <-].
  - destruct (running i); [apply IH | done].
Qed.

(** Every enumerated path is either hashed or a decode failure. *)
Lemma hashed_or_failed w images :
  length images
  = (length (hashed w images) + length (decode_failures w images))%nat.
Proof.
  unfold hashed, decode_failures.
  induction images as [|p images IH]; [done|].
  rewrite filter_cons. cbn [omap list_omap].
  case_decide as E.
  - rewrite E. simpl. lia.
  - destruct (read_image w p); [simpl; lia | done].
Qed.

Lemma hashed_paths w images :
  decode_failures w images = [] → path <$> hashed w images = images.
Proof.
  unfold hashed, decode_failures.
  induction images as [|p images IH]; [done|].
  rewrite filter_cons. cbn [omap list_omap].
  case_decide as E; [done|]. intros Hf.
  destruct (read_image w p) as [r|] eqn:Er; [|done].
  rewrite fmap_cons. f_equal; [by apply (read_image_path w) | by apply IH].
Qed.

(** The totals that a completed run reports. *)
Lemma dedupe_process_totals inp w s w' :
  dedupe_process inp w = (inr s, w') →
  total_scanned s
    = Z.of_nat (length (find_images_recursive w (src_dir inp))) ∧
  total_kept s
    = dict_len (kept (cluster (hashed w (find_images_recursive w (src_dir inp))))) ∧
  total_duplicates s
    = dict_len (duplicates (cluster (hashed w (find_images_recursive w (src_dir inp))))).
Proof.
  unfold dedupe_process. unfold bind at 1, get_world.
  set (images := find_images_recursive w (src_dir inp)).
  destruct (Z.of_nat (length images) =? 0); [done|].
  destruct (hashing_loop (running inp) 0 w images []) as [hashes|] eqn:Hh; [|done].
  apply hashing_loop_Some in Hh. simpl in Hh. subst hashes.
  destruct (comparison_pass _ _ _ _) as [st|] eqn:Hc; [|done].
  apply comparison_pass_Some in Hc. fold (cluster (hashed w images)) in Hc.
  subst st. intros Hrun.
  repeat (apply bind_inr in Hrun as (? & ? & _ & Hrun)).
  unfold ret in Hrun. by injection Hrun as <- _.
Qed.

(** C4 (amended): in every completed run [total_scanned] is the number of
    enumerated files, which counts the files that were hashed and the
    files that failed to decode alike; [total_kept] and [total_duplicates]
    are the sizes of the two maps of the pass over the hashed files; and
    when the enumerated paths are distinct, none failed to decode and no
    path ends in both maps, [total_kept + total_duplicates] equals
    [total_scanned]. *)
Theorem session_totals inp w s w' :
  dedupe_process inp w = (inr s, w') →
  let images := find_images_recursive w (src_dir inp) in
  total_scanned s = Z.of_nat (length images) ∧
  total_scanned s
    = Z.of_nat (length (hashed w images))
      + Z.of_nat (length (decode_failures w images)) ∧
  total_kept s = dict_len (kept (cluster (hashed w images))) ∧
  total_duplicates s = dict_len (duplicates (cluster (hashed w images))) ∧
  (NoDup images → decode_failures w images = [] →
   (∀ p, ¬ in_both p (cluster (hashed w images))) →
   total_kept s + total_duplicates s = total_scanned s).
Proof.
  intros (Hs & Hk & Hd)%dedupe_process_totals images. fold images in Hs, Hk, Hd.
  split_and!; [done | | done | done |].
  - rewrite Hs, (hashed_or_failed w images). lia.
  - intros Hnd Hnf Hdisj. rewrite Hs, Hk, Hd.
    rewrite cluster_count; [| by rewrite hashed_paths | done].
    rewrite <- (hashed_paths w images Hnf) at 2. by rewrite length_fmap.
Qed.

(** C10: when the enumeration finds no image the run returns right after
    the scan and the file system is as it was: no trash directory has been
    created and none of the four artifacts has been written. *)
Theorem no_images_no_output inp w :
  find_images_recursive w (src_dir inp) = [] →
  dedupe_process inp w = (inl NoImages, w) ∧
  (dedupe_process inp w).2 = w ∧
  dirs (dedupe_process inp w).2 = dirs w ∧
  files (dedupe_process inp w).2 = files w.
Proof.
  intros Hempty.
  assert (Hrun : dedupe_process inp w = (inl NoImages, w)).
  { unfold dedupe_process. unfold bind at 1, get_world. by rewrite Hempty. }
  by rewrite Hrun.
Qed.
End RunFacts.

(** ** Runs on concrete worlds *)

(** A completed run creates the trash directory and writes the four
    artifacts. *)
Example completed_run_writes_artifacts :
  let w' := (Sample.run Sample.clean_listing Sample.table Sample.input
               Sample.clean_world).2 in
  forallb (λ p, path_exists p w')
    ["/out/trash"; "/out/a.jpg"; "/out/trash/b.PNG"; "/out/duplicate_log.csv";
     "/out/trash/duplicate_details.csv"; "/out/dedupe_session.json";
     "/out/dedupe_session_report.md"] = true.
Proof. by vm_compute. Qed.

Lemma run_completed `{Platform} inp w s :
  (dedupe_process inp w).1 = inr s →
  dedupe_process inp w = (inr s, (dedupe_process inp w).2).
Proof. intros <-. by destruct (dedupe_process inp w). Qed.

Lemma session_totals_witness :
  ∃ s, (Sample.run Sample.clean_listing Sample.table Sample.input
          Sample.clean_world).1 = inr s ∧
       total_scanned s = 2 ∧
       total_kept s + total_duplicates s = total_scanned s.
Proof.
  set (P := Sample.platform Sample.clean_listing Sample.table).
  set (s := {| timestamp := "2024-01-01T00:00:00";
               source_directory := "/src"; output_directory := "/out";
               trash_directory := "/out/trash";
               total_scanned := 2; total_kept := 1; total_duplicates := 1;
               hash_method := "phash"; hash_distance_threshold := 5;
               clusters := [("/src/a.jpg", ["/src/b.PNG"])] |}).
  assert (Hrun : (@dedupe_process P Sample.input Sample.clean_world).1 = inr s)
    by (vm_compute; reflexivity).
  exists s. split; [exact Hrun|]. split; [reflexivity|].
  refine (proj2 (proj2 (proj2 (proj2
            (@session_totals P Sample.input Sample.clean_world s _
               (run_completed _ _ _ Hrun))))) _ _ _).
  - apply (bool_decide_unpack _). by vm_compute.
  - by vm_compute.
  - intros p [Hk Hd]. vm_compute in Hk, Hd.
    apply list_elem_of_singleton in Hk, Hd. congruence.
Defined.

(** C4 as stated fails on a run with a decode failure: two files are
    enumerated, one is hashed and one fails to decode, and [total_scanned]
    is 2, not the number of hashed files. *)
Lemma failed_file_counted_as_scanned :
  let P := Sample.platform Sample.failing_listing Sample.table in
  let images := @find_images_recursive P Sample.failing_world "/src" in
  images = ["/src/a.jpg"; "/src/c.gif"] ∧
  path <$> @hashed P Sample.failing_world images = ["/src/a.jpg"] ∧
  @decode_failures P Sample.failing_world images = ["/src/c.gif"] ∧
  ∃ s, (@dedupe_process P Sample.input Sample.failing_world).1 = inr s ∧
       total_scanned s = 2 ∧
       total_scanned s
         ≠ Z.of_nat (length (@hashed P Sample.failing_world images)).
Proof.
  cbv zeta. split_and!; [by vm_compute..|].
  eexists. split; [vm_compute; reflexivity|]. by vm_compute.
Qed.

Lemma kept_copy_never_overwrites_witness :
  let P := Sample.platform Sample.clean_listing Sample.table in
  let ks := [Sample.record "/src/a.jpg" 0 1920 1080] in
  files (@copy_kept P "/out" ks Sample.occupied_world).2 !! "/out/a.jpg"
    = Some (FileBytes "earlier").
Proof.
  exact (proj1 (@kept_copy_never_overwrites
                  (Sample.platform Sample.clean_listing Sample.table) "/out"
                  [Sample.record "/src/a.jpg" 0 1920 1080] Sample.occupied_world)
           "/out/a.jpg" (FileBytes "earlier") ltac:(vm_compute; reflexivity)).
Defined.

Lemma no_images_no_output_witness :
  Sample.run Sample.empty_listing Sample.table Sample.input Sample.empty_world
  = (inl NoImages, Sample.empty_world).
Proof.
  exact (proj1 (@no_images_no_output
                  (Sample.platform Sample.empty_listing Sample.table)
                  Sample.input Sample.empty_world ltac:(vm_compute; reflexivity))).
Defined.

(** * Further properties of the comparison pass *)

Section DictEntries.
Context {V : Type}.
Implicit Types (d : dict V) (k : string) (v : V).

Lemma dict_set_entries k v d x : x ∈ dict_set k v d → x = (k, v) ∨ x ∈ d.
Proof.
  induction d as [|[k1 v1] d IH]; simpl.
  - intros ?%list_elem_of_singleton. by left.
  - destruct (decide (k = k1)).
    + intros [->|?]%elem_of_cons; [by left | right; by right].
    + intros [->|[?|?]%IH]%elem_of_cons; [right; by left | by left | right; by right].
Qed.

Lemma dict_del_entries k d x : x ∈ dict_del k d → x ∈ d.
Proof.
  induction d as [|[k1 v1] d IH]; simpl; [done|].
  destruct (decide (k = k1)).
  - intros ?. by right.
  - intros [->|?%IH]%elem_of_cons; [by left | by right].
Qed.

Lemma dict_setdefault_entries k v d x :
  x ∈ dict_setdefault k v d → x = (k, v) ∨ x ∈ d.
Proof.
  unfold dict_setdefault. destruct (dict_contains k d); [by right|].
  apply dict_set_entries.
Qed.

Lemma dict_set_fresh k v d : k ∉ dict_keys d → dict_set k v d = d ++ [(k, v)].
Proof.
  unfold dict_keys. induction d as [|[k1 v1] d IH]; simpl; [done|].
  intros [Hne Hd]%not_elem_of_cons. rewrite decide_False by done.
  by rewrite IH.
Qed.

Lemma dict_set_nonempty k v d : dict_set k v d ≠ [].
Proof. destruct d as [|[k1 v1] d]; simpl; [done|]. by destruct (decide _). Qed.

Lemma dict_entry_key d k v : (k, v) ∈ d → k ∈ dict_keys d.
Proof. intros H. unfold dict_keys. by apply (list_elem_of_fmap_2 fst) in H. Qed.
End DictEntries.

Lemma hash_sub_comm a b : hash_sub a b = hash_sub b a.
Proof. unfold hash_sub. by rewrite Z.lxor_comm. Qed.

Lemma hash_sub_nonneg a b : 0 ≤ hash_sub a b.
Proof. unfold hash_sub, count_nonzero. lia. Qed.

Lemma ordered_pair_head A later B : B ∈ later → ordered_pair (A :: later) A B.
Proof. intros HB. by exists [], later. Qed.

Lemma ordered_pair_tail A later X Y :
  ordered_pair later X Y → ordered_pair (A :: later) X Y.
Proof. intros (pre & l & -> & HY). by exists (A :: pre), l. Qed.

Lemma ordered_pair_elem records A B :
  ordered_pair records A B → A ∈ records ∧ B ∈ records.
Proof.
  intros (pre & later & -> & HB). split; apply elem_of_app; right.
  - by left.
  - by right.
Qed.

Lemma ordered_pair_paths records A B :
  NoDup (path <$> records) → ordered_pair records A B → path A ≠ path B.
Proof.
  intros Hnd (pre & later & -> & HB).
  rewrite fmap_app, fmap_cons in Hnd.
  apply NoDup_app in Hnd as (_ & _ & [Hnot _]%NoDup_cons).
  intros Heq. apply Hnot. rewrite Heq. by apply list_elem_of_fmap_2.
Qed.

(** What [recorded] returns is an edge that comes from the pair. *)
Lemma recorded_edge_from A B st r :
  recorded A B st = Some r → edge_from A B (removed r, edge r).
Proof.
  unfold recorded, edge_from.
  destruct (dict_contains (path B) (duplicates st)); [done|].
  destruct (Z.leb_spec (hash_sub (hash A) (hash B)) HASH_DISTANCE_THRESHOLD);
    [|done].
  destruct (resolution_eqb _ _) eqn:Hres; [done|].
  apply resolution_eqb_false in Hres.
  destruct (area (resolution A) >=? area (resolution B)) eqn:Ha;
    intros [= <-]; simpl; split_and!; try done.
  - left. split; [done|]. by apply Z.geb_le.
  - right. split; [done|]. rewrite Z.geb_leb in Ha. by apply Z.leb_gt.
Qed.

Lemma inner_body_edges (Q : string * DuplicateEdge → Prop) A B st :
  (∀ e, edge_from A B e → Q e) →
  (∀ e, e ∈ duplicates st → Q e) →
  ∀ e, e ∈ duplicates (inner_body A B st) → Q e.
Proof.
  intros Hnew Hold e. rewrite inner_body_recorded.
  destruct (recorded A B st) as [r|] eqn:Hr; [|by apply Hold].
  intros [->|He]%dict_set_entries; [|by apply Hold].
  by apply Hnew, (recorded_edge_from A B st).
Qed.

Lemma inner_loop_edges (Q : string * DuplicateEdge → Prop) A later st :
  (∀ B e, B ∈ later → edge_from A B e → Q e) →
  (∀ e, e ∈ duplicates st → Q e) →
  ∀ e, e ∈ duplicates (inner_loop A later st) → Q e.
Proof.
  unfold inner_loop. revert st.
  induction later as [|B later IH]; intros st Hnew Hold; simpl; [done|].
  apply IH.
  - intros B' e HB'. apply Hnew. by right.
  - apply inner_body_edges; [|done]. intros e. apply Hnew. by left.
Qed.

Lemma cluster_from_edges (Q : string * DuplicateEdge → Prop) records st :
  (∀ A B e, ordered_pair records A B → edge_from A B e → Q e) →
  (∀ e, e ∈ duplicates st → Q e) →
  ∀ e, e ∈ duplicates (cluster_from records st) → Q e.
Proof.
  revert st. induction records as [|A later IH]; intros st Hnew Hold; simpl;
    [done|].
  apply IH.
  - intros X Y e HXY. apply Hnew. by apply ordered_pair_tail.
  - unfold outer_body.
    destruct (dict_contains (path A) (duplicates st)); [done|].
    apply inner_loop_edges; [|done].
    intros B e HB. apply Hnew. by apply ordered_pair_head.
Qed.

(** Every entry of the final duplicates map comes from one comparison of an
    anchor with a later record. *)
Lemma edge_origin hashes e :
  e ∈ duplicates (cluster hashes) →
  ∃ A B, ordered_pair hashes A B ∧ edge_from A B e.
Proof.
  apply (cluster_from_edges
           (λ e, ∃ A B, ordered_pair hashes A B ∧ edge_from A B e)).
  - intros A B e' HAB He. by exists A, B.
  - intros e' He'. by apply elem_of_nil in He'.
Qed.

Lemma inner_body_kept (Q : string * ImageRecord → Prop) A B st :
  Q (path B, B) →
  (∀ x, x ∈ kept st → Q x) →
  ∀ x, x ∈ kept (inner_body A B st) → Q x.
Proof.
  intros HB Hold x. inner_cases A B st; simpl; try by apply Hold.
  intros [->|Hx]%dict_set_entries; [done|]. apply Hold.
  destruct (dict_contains (path A) (kept st)); [|done].
  by apply dict_del_entries in Hx.
Qed.

Lemma inner_loop_kept (Q : string * ImageRecord → Prop) A later st :
  (∀ B, B ∈ later → Q (path B, B)) →
  (∀ x, x ∈ kept st → Q x) →
  ∀ x, x ∈ kept (inner_loop A later st) → Q x.
Proof.
  unfold inner_loop. revert st.
  induction later as [|B later IH]; intros st Hl Hold; simpl; [done|].
  apply IH.
  - intros B' HB'. apply Hl. by right.
  - apply inner_body_kept; [apply Hl; by left | done].
Qed.

Lemma cluster_from_kept (Q : string * ImageRecord → Prop) records st :
  (∀ r, r ∈ records → Q (path r, r)) →
  (∀ x, x ∈ kept st → Q x) →
  ∀ x, x ∈ kept (cluster_from records st) → Q x.
Proof.
  revert st. induction records as [|A later IH]; intros st Hl Hold; simpl;
    [done|].
  apply IH.
  - intros r Hr. apply Hl. by right.
  - unfold outer_body.
    destruct (dict_contains (path A) (duplicates st)); [done|].
    apply inner_loop_kept.
    + intros B HB. apply Hl. by right.
    + simpl. intros x [->|Hx]%dict_setdefault_entries; [|by apply Hold].
      apply Hl. by left.
Qed.

Lemma inner_body_kept_nonempty A B st :
  kept st ≠ [] → kept (inner_body A B st) ≠ [].
Proof.
  intros H. inner_cases A B st; simpl; try done. apply dict_set_nonempty.
Qed.

Lemma inner_loop_kept_nonempty A later st :
  kept st ≠ [] → kept (inner_loop A later st) ≠ [].
Proof.
  unfold inner_loop. revert st.
  induction later as [|B later IH]; intros st H; simpl; [done|].
  apply IH. by apply inner_body_kept_nonempty.
Qed.

Lemma outer_body_kept_nonempty A later st :
  kept st ≠ [] → kept (outer_body A later st) ≠ [].
Proof.
  unfold outer_body. intros H.
  destruct (dict_contains (path A) (duplicates st)); [done|].
  apply inner_loop_kept_nonempty. simpl. unfold dict_setdefault.
  destruct (dict_contains (path A) (kept st)); [done | apply dict_set_nonempty].
Qed.

Lemma cluster_from_kept_nonempty records st :
  kept st ≠ [] → kept (cluster_from records st) ≠ [].
Proof.
  revert st. induction records as [|A later IH]; intros st H; simpl; [done|].
  apply IH. by apply outer_body_kept_nonempty.
Qed.

Lemma inner_loop_independent A later st :
  (∀ B, B ∈ later →
     HASH_DISTANCE_THRESHOLD < hash_sub (hash A) (hash B) ∨
     resolution A = resolution B) →
  inner_loop A later st = st.
Proof.
  unfold inner_loop. induction later as [|B later IH]; intros H; simpl; [done|].
  assert (Hb : inner_body A B st = st).
  { destruct (H B) as [Hfar|Hsame]; [by left | |].
    - by apply inner_body_far.
    - by apply inner_body_same_resolution. }
  rewrite Hb. apply IH. intros B' HB'. apply H. by right.
Qed.

Lemma cluster_from_independent records acc :
  NoDup (dict_keys acc ++ (path <$> records)) →
  independent records →
  cluster_from records {| kept := acc; duplicates := [] |}
  = {| kept := acc ++ ((λ r, (path r, r)) <$> records); duplicates := [] |}.
Proof.
  revert acc. induction records as [|A later IH]; intros acc Hnd Hind; simpl.
  - by rewrite app_nil_r.
  - assert (HA : path A ∉ dict_keys acc).
    { apply NoDup_app in Hnd as (_ & Hdisj & _). intros Hin.
      apply (Hdisj _ Hin). by left. }
    unfold outer_body. cbn [duplicates kept].
    replace (dict_contains (path A) ([] : dict DuplicateEdge)) with false by done.
    rewrite inner_loop_independent.
    2:{ intros B HB. apply Hind. by apply ordered_pair_head. }
    unfold dict_setdefault.
    rewrite (proj2 (dict_contains_false _ _) HA), dict_set_fresh by done.
    rewrite IH.
    + by rewrite <- app_assoc.
    + unfold dict_keys in *. rewrite fmap_app, <- app_assoc. simpl.
      by rewrite fmap_cons in Hnd.
    + intros X Y HXY. apply Hind. by apply ordered_pair_tail.
Qed.

Lemma ordered_pair_cons X l A B :
  ordered_pair (X :: l) A B → (A = X ∧ B ∈ l) ∨ ordered_pair l A B.
Proof.
  intros ([|Y pre] & later & Heq & HB); simplify_eq/=.
  - by left.
  - right. by exists pre, later.
Qed.

Lemma ordered_pair_nil A B : ¬ ordered_pair [] A B.
Proof. intros ([|Y pre] & later & Heq & HB); simplify_eq/=. Qed.

(** X1: every record of the list ends the pass as a key of the kept map or
    of the duplicates map; no record is dropped from both. *)
Theorem every_record_is_decided hashes r :
  r ∈ hashes →
  decided (path r) (cluster hashes) ∧
  ∀ running i st,
    comparison_pass running i hashes empty_state = Some st →
    decided (path r) st.
Proof.
  intros Hr. split; [by apply cluster_from_covers|].
  intros running i st ->%comparison_pass_Some. by apply cluster_from_covers.
Qed.

Lemma every_record_is_decided_witness :
  decided "/src/x.jpg" (cluster Sample.later_demoted).
Proof.
  exact (proj1 (every_record_is_decided Sample.later_demoted
                  (Sample.record "/src/x.jpg" 0 10 10)
                  ltac:(apply list_elem_of_here))).
Defined.

(** X2: at the end of the pass neither map has a key twice, every key of
    either map is the path of a record of the list, and the kept map stores
    under each key a record of the list that has this path. *)
Theorem maps_hold_input_records hashes :
  well_keyed (cluster hashes) ∧
  keys_within (path <$> hashes) (cluster hashes) ∧
  ∀ p r, (p, r) ∈ kept (cluster hashes) → r ∈ hashes ∧ path r = p.
Proof.
  split_and!.
  - apply cluster_from_well_keyed. split; apply NoDup_nil_2.
  - apply cluster_from_keys_within.
    + intros r Hr. by apply list_elem_of_fmap_2.
    + split; intros p Hp; by apply elem_of_nil in Hp.
  - intros p r. unfold cluster.
    apply (cluster_from_kept (λ x, x.2 ∈ hashes ∧ path x.2 = x.1)).
    + intros r' Hr'. by split.
    + intros x Hx. by apply elem_of_nil in Hx.
Qed.

Lemma maps_hold_input_records_witness :
  Sample.record "/src/a.jpg" 1023 30 30 ∈ Sample.later_demoted ∧
  path (Sample.record "/src/a.jpg" 1023 30 30) = "/src/a.jpg".
Proof.
  exact (proj2 (proj2 (maps_hold_input_records Sample.later_demoted))
           "/src/a.jpg" (Sample.record "/src/a.jpg" 1023 30 30)
           ltac:(vm_compute; apply list_elem_of_further, list_elem_of_here)).
Defined.

(** X3: a path that is a key of the duplicates map and not of the kept map
    stays so through every comparison, every anchor's turn and the rest of
    the pass: it is never put back into the kept map and never leaves the
    duplicates map. *)
Theorem removed_path_stays_removed p st :
  gone p st →
  (∀ A B, gone p (inner_body A B st)) ∧
  (∀ A later, gone p (outer_body A later st)) ∧
  (∀ records, gone p (cluster_from records st)) ∧
  (∀ running i records st',
     comparison_pass running i records st = Some st' → gone p st').
Proof.
  intros Hp. split_and!.
  - intros A B. by apply inner_body_gone.
  - intros A later. by apply outer_body_gone.
  - intros records. by apply cluster_from_gone.
  - intros running i records st' ->%comparison_pass_Some.
    by apply cluster_from_gone.
Qed.

Lemma removed_path_stays_removed_witness :
  gone "/src/x.jpg"
    (cluster_from Sample.later_demoted
       {| kept := [("/src/k.jpg", Sample.record "/src/k.jpg" 0 50 50)];
          duplicates := [("/src/x.jpg", ("/src/k.jpg", 0))] |}).
Proof.
  refine (proj1 (proj2 (proj2
            (removed_path_stays_removed "/src/x.jpg"
               {| kept := [("/src/k.jpg", Sample.record "/src/k.jpg" 0 50 50)];
                  duplicates := [("/src/x.jpg", ("/src/k.jpg", 0))] |} _)))
            Sample.later_demoted).
  split.
  - apply list_elem_of_here.
  - intros H%list_elem_of_singleton. discriminate.
Defined.

(** X4: with distinct paths, every entry [p ↦ (k, d)] of the final
    duplicates map is justified by two records of the list: [p] and [k] are
    the paths of two different records, [d] is the distance of their hashes
    and lies between 0 and the threshold, their resolutions differ, and the
    removed record has no larger area than the one named as kept. *)
Theorem every_edge_is_justified hashes p k d :
  NoDup (path <$> hashes) →
  (p, (k, d)) ∈ duplicates (cluster hashes) →
  ∃ R K,
    R ∈ hashes ∧ K ∈ hashes ∧ path R = p ∧ path K = k ∧ p ≠ k ∧
    d = hash_sub (hash R) (hash K) ∧
    0 ≤ d ≤ HASH_DISTANCE_THRESHOLD ∧
    resolution R ≠ resolution K ∧
    area (resolution R) ≤ area (resolution K).
Proof.
  intros Hnd (A & B & HAB & Hd & Hres & Hcase)%edge_origin.
  pose proof (ordered_pair_paths _ _ _ Hnd HAB) as Hne.
  destruct (ordered_pair_elem _ _ _ HAB) as [HA HB].
  pose proof (hash_sub_nonneg (hash A) (hash B)) as H0.
  destruct Hcase as [[[= -> -> ->] Ha]|[[= -> -> ->] Ha]].
  - exists B, A. rewrite (hash_sub_comm (hash B)). split_and!; try done.
  - exists A, B. split_and!; try done. lia.
Qed.

Lemma every_edge_is_justified_witness :
  ∃ R K,
    R ∈ Sample.later_demoted ∧ K ∈ Sample.later_demoted ∧
    path R = "/src/x.jpg" ∧ path K = "/src/b.jpg" ∧ "/src/x.jpg" ≠ "/src/b.jpg" ∧
    5 = hash_sub (hash R) (hash K) ∧
    0 ≤ 5 ≤ HASH_DISTANCE_THRESHOLD ∧
    resolution R ≠ resolution K ∧
    area (resolution R) ≤ area (resolution K).
Proof.
  exact (every_edge_is_justified Sample.later_demoted "/src/x.jpg" "/src/b.jpg" 5
           ltac:(apply (bool_decide_unpack _); vm_compute; reflexivity)
           ltac:(vm_compute; apply list_elem_of_here)).
Defined.

(** X5: when the paths are distinct and every pair of records is farther
    apart than the threshold or has one and the same resolution, nothing is
    removed: the duplicates map is empty and the kept map holds every record
    under its path, in the order of the list. *)
Theorem independent_records_all_kept hashes :
  NoDup (path <$> hashes) →
  independent hashes →
  cluster hashes =
    {| kept := (λ r, (path r, r)) <$> hashes; duplicates := [] |}.
Proof.
  intros Hnd Hind. unfold cluster, empty_state.
  by rewrite cluster_from_independent.
Qed.

Lemma independent_records_all_kept_witness :
  cluster [Sample.record "/src/p.jpg" 0 40 30; Sample.record "/src/r.jpg" 63 20 15;
           Sample.record "/src/s.jpg" 0 40 30]
  = {| kept := [("/src/p.jpg", Sample.record "/src/p.jpg" 0 40 30);
                ("/src/r.jpg", Sample.record "/src/r.jpg" 63 20 15);
                ("/src/s.jpg", Sample.record "/src/s.jpg" 0 40 30)];
       duplicates := [] |}.
Proof.
  refine (independent_records_all_kept
            [Sample.record "/src/p.jpg" 0 40 30; Sample.record "/src/r.jpg" 63 20 15;
             Sample.record "/src/s.jpg" 0 40 30] _ _).
  - apply (bool_decide_unpack _). vm_compute. reflexivity.
  - intros A B HAB.
    apply ordered_pair_cons in HAB as [[-> HB]|HAB].
    + apply elem_of_cons in HB as [->|HB]; [left; vm_compute; reflexivity|].
      apply list_elem_of_singleton in HB as ->. right. reflexivity.
    + apply ordered_pair_cons in HAB as [[-> HB]|HAB].
      * apply list_elem_of_singleton in HB as ->. left. vm_compute. reflexivity.
      * apply ordered_pair_cons in HAB as [[-> HB]|HAB].
        -- by apply elem_of_nil in HB.
        -- by apply ordered_pair_nil in HAB.
Defined.

(** X6: the pass never empties the kept map: from a non-empty list at least
    one record is kept, whatever is removed. *)
Theorem some_record_is_kept hashes :
  hashes ≠ [] → kept (cluster hashes) ≠ [].
Proof.
  destruct hashes as [|A later]; [done|]. intros _.
  unfold cluster. simpl. apply cluster_from_kept_nonempty.
  unfold outer_body. simpl. apply inner_loop_kept_nonempty. simpl.
  apply dict_set_nonempty.
Qed.

Lemma some_record_is_kept_witness : kept (cluster Sample.twice_removed) ≠ [].
Proof. exact (some_record_is_kept Sample.twice_removed ltac:(discriminate)). Defined.

(** * Further properties of a run *)

(** ** How actions compose *)

Lemma bind_inl {A B} (m : action A) (f : A → action B) w s :
  (bind m f w).1 = inl s →
  (m w).1 = inl s ∨ ∃ a, (m w).1 = inr a ∧ (f a (m w).2).1 = inl s.
Proof.
  unfold bind. destruct (m w) as [[s'|a] w1]; simpl.
  - intros [= ->]. by left.
  - intros H. right. by exists a.
Qed.

Lemma bind_avoids {A B} s (m : action A) (f : A → action B) :
  avoids s m → (∀ a, avoids s (f a)) → avoids s (bind m f).
Proof.
  intros Hm Hf w Hs. apply bind_inl in Hs as [Hs|(a & _ & Hs)].
  - by apply (Hm w).
  - by apply (Hf a (m w).2).
Qed.

Lemma grows_refl w : grows w w.
Proof. by split. Qed.

Lemma grows_trans w1 w2 w3 : grows w1 w2 → grows w2 w3 → grows w1 w3.
Proof.
  intros [F1 D1] [F2 D2]. split; intros p Hp; [apply F2, F1 | apply D2, D1]; done.
Qed.

Lemma grows_path_exists w w' p :
  grows w w' → path_exists p w = true → path_exists p w' = true.
Proof.
  unfold path_exists. intros [HF HD] [Hp|Hp]%orb_true_iff; apply orb_true_iff.
  - left. apply bool_decide_eq_true, HF. by apply bool_decide_eq_true in Hp.
  - right. apply bool_decide_eq_true, HD. by apply bool_decide_eq_true in Hp.
Qed.

Lemma bind_snd {A B} (m : action A) (f : A → action B) w :
  (bind m f w).2 = (m w).2 ∨ ∃ a, (bind m f w).2 = (f a (m w).2).2.
Proof.
  unfold bind. destruct (m w) as [[s|a] w1]; simpl; [by left|].
  right. by exists a.
Qed.

Lemma bind_growing {A B} (m : action A) (f : A → action B) :
  growing m → (∀ a, growing (f a)) → growing (bind m f).
Proof.
  intros Hm Hf w. destruct (bind_snd m f w) as [->|[a ->]]; [apply Hm|].
  eapply grows_trans; [apply Hm | apply Hf].
Qed.

Lemma bind_frames {A B} T (m : action A) (f : A → action B) :
  frames T m → (∀ a, frames T (f a)) → frames T (bind m f).
Proof.
  intros Hm Hf w p c Hp HT.
  destruct (bind_snd m f w) as [->|[a ->]]; [by apply Hm|].
  apply Hf; [|done]. by apply Hm.
Qed.

Lemma frames_weaken {A} (T T' : string → Prop) (m : action A) :
  (∀ p, T p → T' p) → frames T m → frames T' m.
Proof. intros HT Hm w p c Hp Hn. apply Hm; [done|]. intros ?. by apply Hn, HT. Qed.

(** ** The primitive actions *)

Lemma ret_avoids {A} s (a : A) : avoids s (ret a).
Proof. by intros w. Qed.

Lemma ret_growing {A} (a : A) : growing (ret a).
Proof. intros w. apply grows_refl. Qed.

Lemma ret_frames {A} T (a : A) : frames T (ret a).
Proof. by intros w p c Hp _. Qed.

Lemma leave_growing {A} s : growing (@leave A s).
Proof. intros w. apply grows_refl. Qed.

Lemma leave_frames {A} T s : frames T (@leave A s).
Proof. by intros w p c Hp _. Qed.

Lemma get_world_avoids s : avoids s get_world.
Proof. by intros w. Qed.

Lemma get_world_growing : growing get_world.
Proof. intros w. apply grows_refl. Qed.

Lemma get_world_frames T : frames T get_world.
Proof. by intros w p c Hp _. Qed.

Lemma safe_mkdir_avoids s p : avoids s (safe_mkdir p).
Proof. intros w. unfold safe_mkdir. by destruct (path_exists p w). Qed.

Lemma safe_mkdir_growing p : growing (safe_mkdir p).
Proof.
  intros w. unfold safe_mkdir. destruct (path_exists p w); simpl;
    [apply grows_refl|].
  split; simpl; [done|]. intros q Hq. apply elem_of_union. by right.
Qed.

Lemma safe_mkdir_frames T p : frames T (safe_mkdir p).
Proof. intros w q c Hq _. unfold safe_mkdir. by destruct (path_exists p w). Qed.

Lemma write_file_avoids s p c :
  s ≠ Raised IsADirectoryError → avoids s (write_file p c).
Proof.
  intros Hs w. unfold write_file. destruct (bool_decide _); simpl; [|done].
  intros [= <-]. done.
Qed.

Lemma write_file_growing p c : growing (write_file p c).
Proof.
  intros w. unfold write_file. destruct (bool_decide _); simpl;
    [apply grows_refl|].
  split; simpl; [|done]. intros q Hq.
  destruct (decide (p = q)) as [->|Hne].
  - rewrite lookup_insert_eq. by eexists.
  - by rewrite lookup_insert_ne.
Qed.

Lemma write_file_frames p c : frames (λ q, q = p) (write_file p c).
Proof.
  intros w q c' Hq Hne. unfold write_file. destruct (bool_decide _); simpl;
    [done|].
  rewrite lookup_insert_ne; [done|]. intros ->. by apply Hne.
Qed.

(** ** Copies and lookups *)

Section CopyFacts.
Context `{Platform}.

Lemma copy2_avoids s src dst :
  (∀ e, s = Raised e → e = StopIteration) → avoids s (copy2 src dst).
Proof.
  intros Hs w. unfold copy2. destruct (decide _); simpl.
  - intros [= <-]. by specialize (Hs _ eq_refl).
  - destruct (files w !! src); simpl.
    + apply write_file_avoids. intros ->. by specialize (Hs _ eq_refl).
    + intros [= <-]. by specialize (Hs _ eq_refl).
Qed.

Lemma copy2_growing src dst : growing (copy2 src dst).
Proof.
  intros w. unfold copy2. destruct (decide _); [apply grows_refl|].
  destruct (files w !! src); [apply write_file_growing | apply grows_refl].
Qed.

Lemma copy2_frames src dst : frames (copy_target src dst) (copy2 src dst).
Proof.
  intros w p c Hp HT. unfold copy2. destruct (decide _); [done|].
  destruct (files w !! src); [|done].
  apply write_file_frames; [done|]. intros ->. apply HT. unfold copy_target.
  destruct (bool_decide _); [by right | by left].
Qed.

(** After a copy that did not raise, the destination exists. *)
Lemma copy2_exists src dst w u :
  (copy2 src dst w).1 = inr u → path_exists dst (copy2 src dst w).2 = true.
Proof.
  unfold copy2, path_exists, write_file.
  destruct (bool_decide (dst ∈ dirs w)) eqn:Hdir.
  - intros _. apply orb_true_iff. right. apply bool_decide_eq_true.
    apply bool_decide_eq_true in Hdir.
    destruct (decide _); [done|]. destruct (files w !! src); [|done].
    by destruct (bool_decide _).
  - destruct (decide _); [done|]. destruct (files w !! src); [|done].
    rewrite Hdir. simpl. intros _. apply orb_true_iff. left.
    apply bool_decide_eq_true. rewrite lookup_insert_eq. by eexists.
Qed.

Lemma copy_kept_avoids s out_dir ks :
  (∀ e, s = Raised e → e = StopIteration) → avoids s (copy_kept out_dir ks).
Proof.
  intros Hs. induction ks as [|k ks IH]; [apply ret_avoids|].
  cbn [copy_kept]. apply bind_avoids; [apply get_world_avoids|]. intros w.
  apply bind_avoids; [|done].
  destruct (path_exists _ w); [apply ret_avoids | by apply copy2_avoids].
Qed.

Lemma copy_kept_growing out_dir ks : growing (copy_kept out_dir ks).
Proof.
  induction ks as [|k ks IH]; [apply ret_growing|].
  cbn [copy_kept]. apply bind_growing; [apply get_world_growing|]. intros w.
  apply bind_growing; [|done].
  destruct (path_exists _ w); [apply ret_growing | apply copy2_growing].
Qed.

Lemma copy_kept_frames out_dir ks : frames (λ _, False) (copy_kept out_dir ks).
Proof. intros w p c Hp _. by apply copy_kept_extends. Qed.

(** After a copy of the kept images that did not raise, every kept image
    has a file or directory at its destination. *)
Lemma copy_kept_done out_dir ks w u k :
  (copy_kept out_dir ks w).1 = inr u →
  k ∈ ks →
  path_exists (path_join out_dir (basename (path k))) (copy_kept out_dir ks w).2
    = true.
Proof.
  revert w. induction ks as [|k0 ks IH]; intros w Hok Hk.
  - by apply elem_of_nil in Hk.
  - destruct (path_exists (path_join out_dir (basename (path k0))) w) eqn:Hex.
    + rewrite copy_kept_skip in Hok |- * by done.
      apply elem_of_cons in Hk as [->|Hk]; [|by apply IH].
      by apply (grows_path_exists w), Hex; [apply copy_kept_growing].
    + rewrite copy_kept_copy in Hok |- * by done.
      pose proof (copy2_exists (path k0)
                    (path_join out_dir (basename (path k0))) w) as Hc.
      destruct (copy2 _ _ w) as [[s|[]] w1]; [done|].
      apply elem_of_cons in Hk as [->|Hk]; [|by apply IH].
      apply (grows_path_exists w1); [apply copy_kept_growing|].
      by apply (Hc ()).
Qed.

Lemma find_path hashes p :
  p ∈ path <$> hashes →
  ∃ h, find (λ h, bool_decide (path h = p)) hashes = Some h ∧
       h ∈ hashes ∧ path h = p.
Proof.
  induction hashes as [|r hashes IH]; simpl.
  - by intros ?%elem_of_nil.
  - destruct (bool_decide (path r = p)) eqn:Hr.
    + intros _. exists r. apply bool_decide_eq_true in Hr. split_and!; [done| |done].
      by left.
    + apply bool_decide_eq_false in Hr.
      intros [?|Hp]%elem_of_cons; [done|].
      destruct (IH Hp) as (h & Hf & Hh & Hpath). exists h. split_and!; [done| |done].
      by right.
Qed.

Lemma next_with_path_avoids s p hashes :
  (∀ e, s = Raised e → e = StopIteration) →
  (s = Raised StopIteration → p ∈ path <$> hashes) →
  avoids s (next_with_path p hashes).
Proof.
  intros Hs Hin w. unfold next_with_path.
  destruct (find _ hashes) as [h|] eqn:Hf; [done|].
  simpl. intros [= <-].
  destruct (find_path hashes p (Hin eq_refl)) as (h & Hh & _). congruence.
Qed.

Lemma next_with_path_world p hashes w : (next_with_path p hashes w).2 = w.
Proof. unfold next_with_path. by destruct (find _ hashes). Qed.

Lemma next_with_path_growing p hashes : growing (next_with_path p hashes).
Proof. intros w. rewrite next_with_path_world. apply grows_refl. Qed.

Lemma next_with_path_frames T p hashes : frames T (next_with_path p hashes).
Proof. intros w q c Hq _. by rewrite next_with_path_world. Qed.

Lemma move_duplicates_avoids s trash_dir hashes items rows :
  (∀ e, s = Raised e → e = StopIteration) →
  (s = Raised StopIteration →
   ∀ p k d, (p, (k, d)) ∈ items →
     p ∈ path <$> hashes ∧ k ∈ path <$> hashes) →
  avoids s (move_duplicates trash_dir hashes items rows).
Proof.
  intros Hs. revert rows.
  induction items as [|[p [k d]] items IH]; intros rows Hin; [apply ret_avoids|].
  cbn [move_duplicates]. apply bind_avoids; [by apply copy2_avoids|]. intros _.
  apply bind_avoids.
  { apply next_with_path_avoids; [done|]. intros Hst.
    destruct (Hin Hst p k d) as [Hp _]; [by left | done]. }
  intros A. apply bind_avoids.
  { apply next_with_path_avoids; [done|]. intros Hst.
    destruct (Hin Hst p k d) as [_ Hk]; [by left | done]. }
  intros B. apply IH. intros Hst p' k' d' Hi. apply (Hin Hst p' k' d'). by right.
Qed.

Lemma move_duplicates_growing trash_dir hashes items rows :
  growing (move_duplicates trash_dir hashes items rows).
Proof.
  revert rows. induction items as [|[p [k d]] items IH]; intros rows;
    [apply ret_growing|].
  cbn [move_duplicates]. apply bind_growing; [apply copy2_growing|]. intros _.
  apply bind_growing; [apply next_with_path_growing|]. intros A.
  apply bind_growing; [apply next_with_path_growing|]. intros B. apply IH.
Qed.

Lemma move_duplicates_frames trash_dir hashes items rows :
  frames (λ q, ∃ src, copy_target src (path_join trash_dir (basename src)) q)
    (move_duplicates trash_dir hashes items rows).
Proof.
  revert rows. induction items as [|[p [k d]] items IH]; intros rows;
    [apply ret_frames|].
  cbn [move_duplicates]. apply bind_frames.
  { eapply frames_weaken; [|apply copy2_frames]. intros q Hq. by exists p. }
  intros _. apply bind_frames; [apply next_with_path_frames|]. intros A.
  apply bind_frames; [apply next_with_path_frames|]. intros B. apply IH.
Qed.
End CopyFacts.

(** ** The run as a whole *)

Lemma edge_paths hashes p k d :
  (p, (k, d)) ∈ duplicates (cluster hashes) →
  p ∈ path <$> hashes ∧ k ∈ path <$> hashes.
Proof.
  intros (A & B & [HA HB]%ordered_pair_elem & _ & _ & Hcase)%edge_origin.
  destruct Hcase as [[[= -> -> _] _]|[[= -> -> _] _]];
    split; by apply list_elem_of_fmap_2.
Qed.

Lemma comparison_pass_None running i records st :
  comparison_pass running i records st = None ↔
  forallb running (seq i (length records)) = false.
Proof.
  revert i st. induction records as [|A later IH]; intros i st; simpl; [done|].
  destruct (running i); simpl; [apply IH | done].
Qed.

Section RunAsAWhole.
Context `{Platform}.

Lemma hashing_loop_spec running t w images acc :
  hashing_loop running t w images acc =
    if forallb running (seq t (length images))
    then Some (acc ++ hashed w images) else None.
Proof.
  unfold hashed. revert t acc.
  induction images as [|p images IH]; intros t acc; simpl.
  - by rewrite app_nil_r.
  - destruct (running t); simpl; [|done].
    destruct (read_image w p) as [r|]; rewrite IH; [|done].
    by rewrite <- app_assoc.
Qed.

Lemma forallb_seq_split (f : nat → bool) a b :
  forallb f (seq 0 (a + b)) = forallb f (seq 0 a) && forallb f (seq a b).
Proof. by rewrite seq_app, forallb_app. Qed.

(** The only ways out of [dedupe_process] other than a completed run or an
    error of a copy or a write are the two early returns: without images,
    or with the flag found cleared at one of the reads of the two loops.
    Both leave the file system as it was. *)
Lemma dedupe_process_leaves s inp w :
  (∀ e, s = Raised e → e = StopIteration) →
  (dedupe_process inp w).1 = inl s →
  let images := find_images_recursive w (src_dir inp) in
  ((s = NoImages ∧ images = []) ∨
   (s = Cancelled ∧ images ≠ [] ∧
    forallb (running inp)
      (seq 0 (length images + length (hashed w images))) = false)) ∧
  (dedupe_process inp w).2 = w.
Proof.
  intros Hs. destruct (dedupe_process inp w) as [o w'] eqn:Hrun. simpl.
  intros ->. revert Hrun.
  unfold dedupe_process. unfold bind at 1, get_world.
  set (images := find_images_recursive w (src_dir inp)).
  destruct (Z.eqb_spec (Z.of_nat (length images)) 0) as [Hlen|Hlen].
  { intros [= <- <-]. split; [left | done]. split; [done|].
    destruct images; [done | simpl in Hlen; lia]. }
  assert (Hne : images ≠ []) by (intros Himg; by rewrite Himg in Hlen).
  rewrite forallb_seq_split, hashing_loop_spec.
  destruct (forallb (running inp) (seq 0 (length images))); simpl;
    [|intros [= <- <-]; split; [by right | done]].
  destruct (comparison_pass _ _ _ _) as [st|] eqn:Hc.
  2:{ apply comparison_pass_None in Hc.
      intros [= <- <-]. split; [by right | done]. }
  apply comparison_pass_Some in Hc. fold (cluster (hashed w images)) in Hc.
  subst st. intros Hout. exfalso.
  assert (Hw : ∀ p c, avoids s (write_file p c)).
  { intros p c. apply write_file_avoids. intros ->. by specialize (Hs _ eq_refl). }
  revert Hout.
  match goal with
  | |- ?m w = _ → False =>
      intros Hout; cut (avoids s m);
        [intros Hav; apply (Hav w); by rewrite Hout|]
  end.
  apply bind_avoids; [apply safe_mkdir_avoids|]. intros _.
  apply bind_avoids; [apply safe_mkdir_avoids|]. intros _.
  apply bind_avoids; [by apply copy_kept_avoids|]. intros _.
  apply bind_avoids.
  { apply move_duplicates_avoids; [done|]. intros _ p k d. apply edge_paths. }
  intros rows. repeat (apply bind_avoids; [apply Hw|]; intros _).
  apply ret_avoids.
Qed.

(** With images, a flag found cleared at a read of either loop ends the run
    as cancelled before anything is written. *)
Lemma dedupe_process_cancelled inp w :
  let images := find_images_recursive w (src_dir inp) in
  images ≠ [] →
  forallb (running inp)
    (seq 0 (length images + length (hashed w images))) = false →
  dedupe_process inp w = (inl Cancelled, w).
Proof.
  intros images Hne. unfold dedupe_process. unfold bind at 1, get_world.
  fold images.
  destruct (Z.eqb_spec (Z.of_nat (length images)) 0) as [Hlen|Hlen].
  { destruct images; [done | simpl in Hlen; lia]. }
  rewrite forallb_seq_split, hashing_loop_spec.
  destruct (forallb (running inp) (seq 0 (length images))); simpl; [|done].
  intros Hc. apply (comparison_pass_None _ _ _ empty_state) in Hc.
  by rewrite Hc.
Qed.

Lemma dedupe_process_growing inp : growing (dedupe_process inp).
Proof.
  unfold dedupe_process. apply bind_growing; [apply get_world_growing|].
  intros w0. destruct (_ =? 0); [apply leave_growing|].
  destruct (hashing_loop _ _ _ _ _); [|apply leave_growing].
  destruct (comparison_pass _ _ _ _); [|apply leave_growing].
  apply bind_growing; [apply safe_mkdir_growing|]. intros _.
  apply bind_growing; [apply safe_mkdir_growing|]. intros _.
  apply bind_growing; [apply copy_kept_growing|]. intros _.
  apply bind_growing; [apply move_duplicates_growing|]. intros rows.
  repeat (apply bind_growing; [apply write_file_growing|]; intros _).
  apply ret_growing.
Qed.

Lemma dedupe_process_frames inp :
  frames (run_target (out_dir inp)) (dedupe_process inp).
Proof.
  unfold dedupe_process. apply bind_frames; [apply get_world_frames|].
  intros w0. destruct (_ =? 0); [apply leave_frames|].
  destruct (hashing_loop _ _ _ _ _); [|apply leave_frames].
  destruct (comparison_pass _ _ _ _); [|apply leave_frames].
  apply bind_frames; [apply safe_mkdir_frames|]. intros _.
  apply bind_frames; [apply safe_mkdir_frames|]. intros _.
  apply bind_frames.
  { eapply frames_weaken; [|apply copy_kept_frames]. done. }
  intros _. apply bind_frames.
  { eapply frames_weaken; [|apply move_duplicates_frames].
    intros p Hp. by left. }
  intros rows.
  apply bind_frames.
  { eapply frames_weaken; [|apply write_file_frames].
    intros p ->. right. by left. }
  intros _. apply bind_frames.
  { eapply frames_weaken; [|apply write_file_frames].
    intros p ->. right. right. by left. }
  intros _. apply bind_frames.
  { eapply frames_weaken; [|apply write_file_frames].
    intros p ->. right. right. right. by left. }
  intros _. apply bind_frames.
  { eapply frames_weaken; [|apply write_file_frames].
    intros p ->. right. right. right. by right. }
  intros _. apply ret_frames.
Qed.
End RunAsAWhole.

Section RunTheorems.
Context `{Platform}.

Lemma hashed_filter w images :
  path <$> hashed w images = filter (λ p, is_Some (read_image w p)) images.
Proof.
  unfold hashed. induction images as [|p images IH]; [done|].
  rewrite filter_cons. cbn [omap list_omap].
  destruct (read_image w p) as [r|] eqn:Er.
  - rewrite decide_True by by eexists.
    rewrite fmap_cons, IH. f_equal. by apply (read_image_path w).
  - rewrite decide_False; [done|]. by intros [? ?].
Qed.

(** X7: the hashing loop reads the flag once per enumerated path and returns
    without a result as soon as it finds it cleared; otherwise it appends
    one record per path that opens and decodes, in the order of the
    enumeration, and passes over the paths that fail. *)
Theorem hashing_loop_skips_failures running t w images acc :
  hashing_loop running t w images acc =
    (if forallb running (seq t (length images))
     then Some (acc ++ hashed w images) else None) ∧
  path <$> hashed w images = filter (λ p, is_Some (read_image w p)) images.
Proof. split; [apply hashing_loop_spec | apply hashed_filter]. Qed.

(** X8: a run removes nothing, however it ends: every file and every
    directory that exists before the run exists after it. *)
Theorem run_never_deletes inp w p :
  path_exists p w = true → path_exists p (dedupe_process inp w).2 = true.
Proof. apply grows_path_exists, dedupe_process_growing. Qed.

(** X9: however a run ends, a file keeps its content unless its path is the
    trash location of some path (or, should that location be a directory,
    the place in it) or the path of one of the four artifacts. *)
Theorem run_overwrites_only_its_targets inp w p c :
  files w !! p = Some c →
  ¬ run_target (out_dir inp) p →
  files (dedupe_process inp w).2 !! p = Some c.
Proof. apply dedupe_process_frames. Qed.


(** X11: with at least one image enumerated, a run ends as cancelled exactly
    when the flag is found cleared at one of its reads, which are one per
    enumerated path in the hashing loop and then one per hashed record in
    the comparison pass; a cancelled run has changed nothing in the file
    system. *)
Theorem run_cancelled_iff_flag_cleared inp w :
  find_images_recursive w (src_dir inp) ≠ [] →
  let images := find_images_recursive w (src_dir inp) in
  let reads := (length images + length (hashed w images))%nat in
  ((dedupe_process inp w).1 = inl Cancelled ↔
   forallb (running inp) (seq 0 reads) = false) ∧
  ((dedupe_process inp w).1 = inl Cancelled → (dedupe_process inp w).2 = w).
Proof.
  intros Hne images reads. split; [split|].
  - intros Hc.
    destruct (dedupe_process_leaves Cancelled inp w) as [[[? _]|(_ & _ & Hf)] _];
      done.
  - intros Hf. by rewrite dedupe_process_cancelled.
  - intros Hc. by destruct (dedupe_process_leaves Cancelled inp w).
Qed.
End RunTheorems.

Lemma run_never_deletes_witness :
  path_exists "/src/b.PNG"
    (Sample.run Sample.clean_listing Sample.table Sample.input
       Sample.clean_world).2 = true.
Proof.
  exact (@run_never_deletes (Sample.platform Sample.clean_listing Sample.table)
           Sample.input Sample.clean_world "/src/b.PNG" ltac:(vm_compute; reflexivity)).
Defined.

Lemma run_overwrites_only_its_targets_witness :
  files (Sample.run Sample.clean_listing Sample.table Sample.input
           Sample.clean_world).2 !! "/src/b.PNG" = Some (FileBytes "B").
Proof.
  refine (@run_overwrites_only_its_targets
            (Sample.platform Sample.clean_listing Sample.table)
            Sample.input Sample.clean_world "/src/b.PNG" (FileBytes "B")
            ltac:(vm_compute; reflexivity) _).
  intros [[src [Hp|Hp]]|[Hp|[Hp|[Hp|Hp]]]]; simpl in Hp; discriminate Hp.
Defined.


Lemma run_cancelled_iff_flag_cleared_witness :
  Sample.run Sample.clean_listing Sample.table Sample.cancelling_input
    Sample.clean_world = (inl Cancelled, Sample.clean_world).
Proof.
  pose proof (@run_cancelled_iff_flag_cleared
                (Sample.platform Sample.clean_listing Sample.table)
                Sample.cancelling_input Sample.clean_world
                ltac:(vm_compute; discriminate)) as [[_ Hc] Hw].
  specialize (Hc ltac:(vm_compute; reflexivity)).
  specialize (Hw Hc). unfold Sample.run.
  destruct (@dedupe_process (Sample.platform Sample.clean_listing Sample.table)
              Sample.cancelling_input Sample.clean_world) as [o w'].
  simpl in Hc, Hw. by rewrite Hc, Hw.
Defined.

(** ** Directories, clusters and rows *)

Lemma safe_mkdir_exists p w : path_exists p (safe_mkdir p w).2 = true.
Proof.
  unfold safe_mkdir. destruct (path_exists p w) eqn:Hex; [done|].
  unfold path_exists. simpl. apply orb_true_iff. right.
  apply bool_decide_eq_true, elem_of_union. left. by apply elem_of_singleton.
Qed.



Lemma dict_get_set_ne {V} k k' (v : V) d :
  k' ≠ k → dict_get k' (dict_set k v d) = dict_get k' d.
Proof.
  intros Hne. induction d as [|[k1 v1] d IH]; simpl.
  - by rewrite decide_False.
  - destruct (decide (k = k1)) as [->|Hk]; simpl.
    + by rewrite !decide_False.
    + by rewrite IH.
Qed.

Lemma cluster_total_add k x (cl : dict (list string)) :
  cluster_total (dict_set k (default [] (dict_get k cl) ++ [x]) cl)
  = S (cluster_total cl).
Proof.
  induction cl as [|[k1 l1] cl IH]; [done|].
  cbn [dict_set dict_get]. destruct (decide (k = k1)) as [->|Hne].
  - unfold cluster_total, dict_values. rewrite !fmap_cons. cbn [snd default sum_list].
    rewrite length_app. simpl. lia.
  - unfold cluster_total, dict_values in *. rewrite !fmap_cons. cbn [sum_list].
    rewrite IH. lia.
Qed.

Lemma in_cluster_add_new k x (cl : dict (list string)) :
  in_cluster k x (dict_set k (default [] (dict_get k cl) ++ [x]) cl).
Proof.
  eexists. split; [apply dict_get_set_eq|]. apply elem_of_app. right. by left.
Qed.

Lemma in_cluster_add k x k' y (cl : dict (list string)) :
  in_cluster k' y (dict_set k (default [] (dict_get k cl) ++ [x]) cl) ↔
  (k' = k ∧ y = x) ∨ in_cluster k' y cl.
Proof.
  unfold in_cluster. destruct (decide (k' = k)) as [->|Hne].
  - rewrite dict_get_set_eq. split.
    + intros (l & [= <-] & [Hy|Hy%list_elem_of_singleton]%elem_of_app).
      * right. destruct (dict_get k cl) as [l0|]; [by exists l0|].
        by apply elem_of_nil in Hy.
      * by left.
    + intros [[_ ->]|(l & Hl & Hy)]; eexists; (split; [done|]);
        apply elem_of_app; [right; by left|].
      left. by rewrite Hl.
  - rewrite dict_get_set_ne by done. split; [by right|].
    by intros [[? _]|?].
Qed.

Lemma build_clusters_from cl (d : dict DuplicateEdge) :
  let step := λ (cl : dict (list string)) '(dup_path, (kept_path, _)),
    dict_set kept_path (default [] (dict_get kept_path cl) ++ [dup_path]) cl in
  cluster_total (foldl step cl d) = (cluster_total cl + length d)%nat ∧
  (NoDup (dict_keys cl) → NoDup (dict_keys (foldl step cl d))) ∧
  ∀ k p, in_cluster k p (foldl step cl d) ↔
         in_cluster k p cl ∨ ∃ dist : Z, (p, (k, dist)) ∈ d.
Proof.
  intros step. revert cl.
  induction d as [|[p0 [k0 d0]] d IH]; intros cl; simpl.
  - split_and!; [lia | done |]. intros k p. split; [by left|].
    intros [?|[dist ?%elem_of_nil]]; done.
  - destruct (IH (dict_set k0 (default [] (dict_get k0 cl) ++ [p0]) cl))
      as (Ht & Hnd & Hin).
    split_and!.
    + rewrite Ht, cluster_total_add. lia.
    + intros Hcl. by apply Hnd, dict_set_NoDup.
    + intros k p. rewrite Hin, in_cluster_add. split.
      * intros [[[-> ->]|?]|[dist Hd]]; [right | by left | right].
        -- exists d0. by left.
        -- exists dist. by right.
      * intros [?|[dist [[= -> -> ->]|Hd]%elem_of_cons]].
        -- left. by right.
        -- left. by left.
        -- right. by exists dist.
Qed.

(** X13: the clusters of the JSON summary list every removed path exactly
    once, under the path its edge names as kept: the lists together have as
    many members as the duplicates map has entries, no kept path has two
    lists, and [p] is listed under [k] exactly when the duplicates map has
    an entry from [p] to [k]. *)
Theorem clusters_partition_the_duplicates (duplicates : dict DuplicateEdge) :
  cluster_total (build_clusters duplicates) = length duplicates ∧
  NoDup (dict_keys (build_clusters duplicates)) ∧
  ∀ k p, in_cluster k p (build_clusters duplicates) ↔
         ∃ dist : Z, (p, (k, dist)) ∈ duplicates.
Proof.
  destruct (build_clusters_from [] duplicates) as (Ht & Hnd & Hin).
  split_and!; [done | apply Hnd, NoDup_nil_2 |].
  intros k p. unfold build_clusters. rewrite Hin. split; [|by right].
  intros [(l & Hl & _)|?]; done.
Qed.

Section Materialized.
Context `{Platform}.

Lemma next_with_path_inr p hashes w A w' :
  next_with_path p hashes w = (inr A, w') → w' = w ∧ A ∈ hashes ∧ path A = p.
Proof.
  unfold next_with_path.
  destruct (find _ hashes) as [h|] eqn:Hf; [|done].
  intros [= <- <-]. apply find_some in Hf as [Hin Hp].
  split_and!; [done | by apply list_elem_of_In | by apply bool_decide_eq_true in Hp].
Qed.

Lemma action_result {A} (m : action A) w a w' :
  m w = (inr a, w') → (m w).1 = inr a ∧ (m w).2 = w'.
Proof. by intros ->. Qed.

Lemma move_duplicates_rows trash_dir hashes items acc w rows w' :
  move_duplicates trash_dir hashes items acc w = (inr rows, w') →
  ∃ new,
    rows = acc ++ new ∧ row_entry <$> new = items ∧
    ∀ row, row ∈ new →
      row_moved_to row = path_join trash_dir (basename (row_removed row)) ∧
      ∃ A B, A ∈ hashes ∧ B ∈ hashes ∧
             path A = row_removed row ∧ path B = row_kept row ∧
             row_removed_resolution row = resolution_str A ∧
             row_kept_resolution row = resolution_str B.
Proof.
  revert acc w. induction items as [|[p [k d]] items IH]; intros acc w.
  - intros [= <- <-]. exists []. rewrite app_nil_r. split_and!; [done..|].
    by intros row ?%elem_of_nil.
  - cbn [move_duplicates]. intros Hrun.
    apply bind_inr in Hrun as (_ & w1 & _ & Hrun).
    apply bind_inr in Hrun as (A & w2 & (_ & HA & HpA)%next_with_path_inr & Hrun).
    apply bind_inr in Hrun as (B & w3 & (_ & HB & HpB)%next_with_path_inr & Hrun).
    apply IH in Hrun as (new & -> & Hent & Hrows).
    eexists (_ :: new). split_and!.
    + by rewrite <- app_assoc.
    + by rewrite fmap_cons, Hent.
    + intros row [->|Hrow]%elem_of_cons; [|by apply Hrows].
      simpl. split; [done|]. by exists A, B.
Qed.

Lemma move_duplicates_done trash_dir hashes items acc w rows w' p k d :
  move_duplicates trash_dir hashes items acc w = (inr rows, w') →
  (p, (k, d)) ∈ items →
  path_exists (path_join trash_dir (basename p)) w' = true.
Proof.
  revert acc w. induction items as [|[p0 [k0 d0]] items IH]; intros acc w.
  - by intros _ ?%elem_of_nil.
  - cbn [move_duplicates]. intros Hrun Hin.
    apply bind_inr in Hrun as (u & w1 & Hcopy & Hrun).
    apply bind_inr in Hrun as (A & w2 & (-> & _)%next_with_path_inr & Hrun).
    apply bind_inr in Hrun as (B & w3 & (-> & _)%next_with_path_inr & Hrun).
    apply elem_of_cons in Hin as [[= -> -> ->]|Hin]; [|by eapply IH].
    apply action_result in Hcopy as [Hc1 Hc2], Hrun as [_ Hr2].
    rewrite <- Hr2. apply (grows_path_exists w1); [apply move_duplicates_growing|].
    rewrite <- Hc2. by apply (copy2_exists _ _ _ u).
Qed.

Lemma write_file_written p c w u w' :
  write_file p c w = (inr u, w') → files w' !! p = Some c.
Proof.
  unfold write_file. destruct (bool_decide _); [done|].
  intros [= _ <-]. simpl. apply lookup_insert_eq.
Qed.

Lemma grows_step {A} (m : action A) w a w' :
  growing m → m w = (inr a, w') → grows w w'.
Proof. intros Hm Hr. specialize (Hm w). by rewrite Hr in Hm. Qed.

Lemma grows_is_Some w w' p c :
  grows w w' → files w !! p = Some c → path_exists p w' = true.
Proof.
  intros [Hf _] Hp. unfold path_exists. apply orb_true_iff. left.
  apply bool_decide_eq_true, Hf. by eexists.
Qed.

(** X14: after a completed run the output directory and the trash directory
    exist, every kept record has a file (or directory) under its base name
    in the output directory, every removed path has one under its base name
    in the trash directory, and the four artifacts exist, the Markdown
    report with the content written last. *)
Theorem completed_run_is_materialized inp w s w' :
  dedupe_process inp w = (inr s, w') →
  let st := cluster (hashed w (find_images_recursive w (src_dir inp))) in
  let trash_dir := path_join (out_dir inp) "trash" in
  path_exists (out_dir inp) w' = true ∧
  path_exists trash_dir w' = true ∧
  (∀ k, k ∈ dict_values (kept st) →
     path_exists (path_join (out_dir inp) (basename (path k))) w' = true) ∧
  (∀ p, p ∈ dict_keys (duplicates st) →
     path_exists (path_join trash_dir (basename p)) w' = true) ∧
  path_exists (path_join (out_dir inp) "duplicate_log.csv") w' = true ∧
  path_exists (path_join trash_dir "duplicate_details.csv") w' = true ∧
  path_exists (path_join (out_dir inp) "dedupe_session.json") w' = true ∧
  (∃ chunks, files w' !! path_join (out_dir inp) "dedupe_session_report.md"
             = Some (SessionReport chunks)).
Proof.
  unfold dedupe_process. unfold bind at 1, get_world.
  set (images := find_images_recursive w (src_dir inp)).
  destruct (Z.of_nat (length images) =? 0); [done|].
  destruct (hashing_loop (running inp) 0 w images []) as [hashes|] eqn:Hh; [|done].
  apply hashing_loop_Some in Hh. simpl in Hh. subst hashes.
  destruct (comparison_pass _ _ _ _) as [st|] eqn:Hc; [|done].
  apply comparison_pass_Some in Hc. fold (cluster (hashed w images)) in Hc.
  subst st. intros Hrun. cbv zeta.
  apply bind_inr in Hrun as (u1 & w1 & H1 & Hrun).
  apply bind_inr in Hrun as (u2 & w2 & H2 & Hrun).
  apply bind_inr in Hrun as (u3 & w3 & H3 & Hrun).
  apply bind_inr in Hrun as (rows & w4 & H4 & Hrun).
  apply bind_inr in Hrun as (u5 & w5 & H5 & Hrun).
  apply bind_inr in Hrun as (u6 & w6 & H6 & Hrun).
  apply bind_inr in Hrun as (u7 & w7 & H7 & Hrun).
  apply bind_inr in Hrun as (u8 & w8 & H8 & Hrun).
  injection Hrun as _ <-.
  pose proof (grows_step _ _ _ _ (safe_mkdir_growing _) H2) as G2.
  pose proof (grows_step _ _ _ _ (copy_kept_growing _ _) H3) as G3.
  pose proof (grows_step _ _ _ _ (move_duplicates_growing _ _ _ _) H4) as G4.
  pose proof (grows_step _ _ _ _ (write_file_growing _ _) H5) as G5.
  pose proof (grows_step _ _ _ _ (write_file_growing _ _) H6) as G6.
  pose proof (grows_step _ _ _ _ (write_file_growing _ _) H7) as G7.
  pose proof (grows_step _ _ _ _ (write_file_growing _ _) H8) as G8.
  assert (G48 : grows w4 w8) by (do 3 (eapply grows_trans; [eassumption|]); done).
  assert (G38 : grows w3 w8) by (eapply grows_trans; eassumption).
  assert (G28 : grows w2 w8) by (eapply grows_trans; eassumption).
  assert (G18 : grows w1 w8) by (eapply grows_trans; eassumption).
  split_and!.
  - apply (grows_path_exists w1); [done|].
    apply action_result in H1 as [_ <-]. apply safe_mkdir_exists.
  - apply (grows_path_exists w2); [done|].
    apply action_result in H2 as [_ <-]. apply safe_mkdir_exists.
  - intros k Hk. apply (grows_path_exists w3); [done|].
    apply action_result in H3 as [H3 <-]. by apply (copy_kept_done _ _ _ u3).
  - intros p Hp. apply (grows_path_exists w4); [done|].
    apply list_elem_of_fmap in Hp as ([p' [k d]] & -> & Hin).
    by apply (move_duplicates_done _ _ _ _ _ _ _ _ _ _ H4 Hin).
  - apply write_file_written in H5.
    eapply (grows_is_Some w5); [|exact H5].
    do 2 (eapply grows_trans; [eassumption|]). done.
  - apply write_file_written in H6.
    eapply (grows_is_Some w6); [|exact H6].
    eapply grows_trans; eassumption.
  - apply write_file_written in H7. eapply (grows_is_Some w7); [done | exact H7].
  - eexists. by apply write_file_written in H8.
Qed.

(** X15: the rows collected for the duplicate log are the entries of the
    duplicates map: one row per entry, in the order of the map, with the
    removed path, the kept path and the distance of the entry; each row
    gives the trash location of its removed path and the resolution strings
    of records of the list with these two paths. *)
Theorem rows_reproduce_the_duplicates trash_dir hashes items w rows w' :
  move_duplicates trash_dir hashes items [] w = (inr rows, w') →
  row_entry <$> rows = items ∧
  ∀ row, row ∈ rows →
    row_moved_to row = path_join trash_dir (basename (row_removed row)) ∧
    ∃ A B, A ∈ hashes ∧ B ∈ hashes ∧
           path A = row_removed row ∧ path B = row_kept row ∧
           row_removed_resolution row = resolution_str A ∧
           row_kept_resolution row = resolution_str B.
Proof. by intros (new & -> & Hent & Hrows)%move_duplicates_rows. Qed.

Lemma find_images_elem w rootdir p :
  p ∈ find_images_recursive w rootdir ↔
  ∃ root ds fs f,
    (root, ds, fs) ∈ os_walk w rootdir ∧ f ∈ fs ∧
    lower (splitext f).2 ∈ VALID_EXTS ∧ p = path_join root f.
Proof.
  unfold find_images_recursive. rewrite list_elem_of_In, in_flat_map. split.
  - intros ([[root ds] fs] & Hw%list_elem_of_In & Hp%list_elem_of_In).
    apply list_elem_of_fmap in Hp as (f & -> & [Hext Hf]%list_elem_of_filter).
    by exists root, ds, fs, f.
  - intros (root & ds & fs & f & Hw & Hf & Hext & ->).
    exists (root, ds, fs). split; [by apply list_elem_of_In|].
    apply list_elem_of_In, list_elem_of_fmap. exists f. split; [done|].
    by apply list_elem_of_filter.
Qed.

(** X16: only enumerated images are ever kept or removed: a key of the kept
    map or of the duplicates map of the pass over the hashed files is a path
    that the enumeration yields, that opens and decodes, and that is a file
    name with a listed extension (compared in lower case) joined to the
    directory [os.walk] reports it in. *)
Theorem only_enumerated_images_are_decided w rootdir p :
  decided p (cluster (hashed w (find_images_recursive w rootdir))) →
  p ∈ find_images_recursive w rootdir ∧
  is_Some (read_image w p) ∧
  ∃ root ds fs f,
    (root, ds, fs) ∈ os_walk w rootdir ∧ f ∈ fs ∧
    lower (splitext f).2 ∈ VALID_EXTS ∧ p = path_join root f.
Proof.
  intros Hp.
  assert (Hin : p ∈ path <$> hashed w (find_images_recursive w rootdir)).
  { destruct (cluster_from_keys_within
                (path <$> hashed w (find_images_recursive w rootdir))
                (hashed w (find_images_recursive w rootdir)) empty_state)
      as [Hk Hd].
    - intros r Hr. by apply list_elem_of_fmap_2.
    - split; intros q Hq; by apply elem_of_nil in Hq.
    - destruct Hp as [Hp|Hp]; [by apply Hk | by apply Hd]. }
  rewrite hashed_filter in Hin. apply list_elem_of_filter in Hin as [Hread Hin].
  split_and!; [done..|]. by apply find_images_elem.
Qed.
End Materialized.

Lemma action_completed {A} (m : action A) w a :
  (m w).1 = inr a → m w = (inr a, (m w).2).
Proof. intros <-. by destruct (m w). Qed.

Lemma completed_run_is_materialized_witness :
  path_exists "/out/trash"
    (Sample.run Sample.clean_listing Sample.table Sample.input
       Sample.clean_world).2 = true.
Proof.
  set (P := Sample.platform Sample.clean_listing Sample.table).
  set (s := {| timestamp := "2024-01-01T00:00:00";
               source_directory := "/src"; output_directory := "/out";
               trash_directory := "/out/trash";
               total_scanned := 2; total_kept := 1; total_duplicates := 1;
               hash_method := "phash"; hash_distance_threshold := 5;
               clusters := [("/src/a.jpg", ["/src/b.PNG"])] |}).
  assert (Hrun : (@dedupe_process P Sample.input Sample.clean_world).1 = inr s)
    by (vm_compute; reflexivity).
  exact (proj1 (proj2
           (@completed_run_is_materialized P Sample.input Sample.clean_world s _
              (action_completed _ _ _ Hrun)))).
Defined.

Lemma rows_reproduce_the_duplicates_witness :
  let P := Sample.platform Sample.clean_listing Sample.table in
  let hashes := [Sample.record "/src/a.jpg" 0 1920 1080;
                 Sample.record "/src/b.PNG" 7 1280 720] in
  ∃ rows,
    (@move_duplicates P "/out/trash" hashes [("/src/b.PNG", ("/src/a.jpg", 3))] []
       Sample.clean_world).1 = inr rows ∧
    row_entry <$> rows = [("/src/b.PNG", ("/src/a.jpg", 3))].
Proof.
  intros P hashes.
  set (rows := [{| row_removed := "/src/b.PNG"; row_moved_to := "/out/trash/b.PNG";
                   row_removed_resolution := "1280x720";
                   row_kept := "/src/a.jpg";
                   row_kept_resolution := "1920x1080"; row_distance := 3 |}]).
  assert (Hrun : (@move_duplicates P "/out/trash" hashes
                    [("/src/b.PNG", ("/src/a.jpg", 3))] []
                    Sample.clean_world).1 = inr rows)
    by (vm_compute; reflexivity).
  exists rows. split; [exact Hrun|].
  exact (proj1 (@rows_reproduce_the_duplicates P "/out/trash" hashes
                  [("/src/b.PNG", ("/src/a.jpg", 3))] Sample.clean_world rows _
                  (action_completed _ _ _ Hrun))).
Defined.

Lemma only_enumerated_images_are_decided_witness :
  let P := Sample.platform Sample.clean_listing Sample.table in
  "/src/b.PNG" ∈ @find_images_recursive P Sample.clean_world "/src" ∧
  is_Some (@read_image P Sample.clean_world "/src/b.PNG").
Proof.
  intros P.
  destruct (@only_enumerated_images_are_decided P Sample.clean_world "/src"
              "/src/b.PNG") as (Hin & Hread & _).
  - right. vm_compute. apply list_elem_of_here.
  - by split.
Defined.

(** ** Resolution strings *)

Lemma occurs_app c s t : occurs c (s +:+ t) = occurs c s || occurs c t.
Proof. induction s as [|c' s IH]; simpl; [done|]. by rewrite IH, orb_assoc. Qed.

Lemma pretty_N_char_plain x : pretty_N_char x ≠ times_char.
Proof. unfold pretty_N_char. by repeat case_match. Qed.

Lemma pretty_N_go_plain x s :
  occurs times_char s = false → occurs times_char (pretty_N_go x s) = false.
Proof.
  revert s. induction (N.lt_wf_0 x) as [x _ IH]; intros s Hs.
  assert (x = 0 ∨ 0 < x)%N as [->|Hx] by lia.
  - by rewrite pretty_N_go_0.
  - rewrite pretty_N_go_step by done. apply IH; [by apply N.div_lt|].
    simpl. rewrite Hs, orb_false_r. apply bool_decide_eq_false.
    intros Heq. by apply (pretty_N_char_plain (x `mod` 10)).
Qed.

Lemma pretty_N_plain (x : N) : occurs times_char (pretty x) = false.
Proof.
  unfold pretty, pretty_N. destruct (decide (x = 0%N)); [done|].
  by apply pretty_N_go_plain.
Qed.

Lemma pretty_Z_plain (x : Z) : occurs times_char (pretty x) = false.
Proof.
  destruct x as [|x|x]; [done| |].
  - apply (pretty_N_plain (N.pos x)).
  - change (pretty (Z.neg x)) with ("-" +:+ pretty (N.pos x)).
    rewrite occurs_app, (pretty_N_plain (N.pos x)). done.
Qed.

(** Two strings that agree and are cut at the first occurrence of a
    character agree before and after the cut. *)
Lemma split_at_first c s1 t1 s2 t2 :
  occurs c s1 = false → occurs c s2 = false →
  s1 +:+ String c t1 = s2 +:+ String c t2 → s1 = s2 ∧ t1 = t2.
Proof.
  revert s2. induction s1 as [|a s1 IH]; intros [|b s2]; simpl.
  - by intros _ _ [= ->].
  - intros _ [Hb _]%orb_false_iff [= <- _]. by apply bool_decide_eq_false in Hb.
  - intros [Ha _]%orb_false_iff _ [= -> _]. by apply bool_decide_eq_false in Ha.
  - intros [_ H1]%orb_false_iff [_ H2]%orb_false_iff [= -> Heq].
    destruct (IH s2 H1 H2 Heq) as [-> ->]. done.
Qed.

Lemma format_resolution_occurs w h :
  occurs times_char (format_resolution (Some (w, h))) = true.
Proof.
  unfold format_resolution. rewrite occurs_app. apply orb_true_iff. right.
  reflexivity.
Qed.

Lemma format_resolution_inj r1 r2 :
  format_resolution r1 = format_resolution r2 → r1 = r2.
Proof.
  destruct r1 as [[w1 h1]|], r2 as [[w2 h2]|]; intros Heq; [| | |done].
  - unfold format_resolution in Heq.
    apply (split_at_first times_char) in Heq as [Hw Hh];
      [|apply pretty_Z_plain..].
    apply (inj pretty) in Hw, Hh. by subst.
  - pose proof (format_resolution_occurs w1 h1) as Ho. by rewrite Heq in Ho.
  - pose proof (format_resolution_occurs w2 h2) as Ho. by rewrite <- Heq in Ho.
Qed.

(** X17: [format_resolution] tells resolutions apart: two resolutions with
    the same string are the same pair of numbers, and the string of a
    resolution is never "unknown", the string of the empty tuple. *)
Theorem format_resolution_identifies r1 r2 :
  format_resolution r1 = format_resolution r2 → r1 = r2.
Proof. apply format_resolution_inj. Qed.

Lemma format_resolution_identifies_witness :
  Some (1920, 1080) = Some (1920, 1080).
Proof.
  exact (format_resolution_identifies (Some (1920, 1080)) (Some (1920, 1080))
           ltac:(reflexivity)).
Defined.

Lemma read_image_Some `{Platform} w p r :
  read_image w p = Some r →
  path r = p ∧
  resolution_str r = format_resolution (Some (resolution r)) ∧
  ∃ c, files w !! p = Some c ∧
       decode c = Some ((resolution r).1, (resolution r).2, hash r).
Proof.
  unfold read_image. destruct (files w !! p) as [c|]; [|done].
  destruct (decode c) as [[[wd ht] ph]|] eqn:Hd; [|done].
  intros [= <-]. simpl. split_and!; [done..|]. by exists c.
Qed.

(** X18: every record that the hashing loop produces carries the path it
    was read from, which is an enumerated path of a file that decodes to the
    record's resolution and hash, and its resolution string is the formatted
    resolution; it is never "unknown". *)
Theorem hashed_records_are_formatted `{Platform} w images r :
  r ∈ hashed w images →
  path r ∈ images ∧
  resolution_str r = format_resolution (Some (resolution r)) ∧
  resolution_str r ≠ "unknown" ∧
  ∃ c, files w !! path r = Some c ∧
       decode c = Some ((resolution r).1, (resolution r).2, hash r).
Proof.
  unfold hashed. intros (p & Hp & Hr)%list_elem_of_omap.
  apply read_image_Some in Hr as (Hpath & Hstr & c & Hc & Hd).
  rewrite Hpath. split_and!; [done | done | | by exists c].
  rewrite Hstr. destruct (resolution r) as [wd ht]. intros Heq.
  by apply (format_resolution_inj (Some (wd, ht)) None) in Heq.
Qed.

Lemma hashed_records_are_formatted_witness :
  resolution_str (Sample.record "/src/a.jpg" 0 1920 1080) ≠ "unknown".
Proof.
  refine (proj1 (proj2 (proj2
            (@hashed_records_are_formatted
               (Sample.platform Sample.clean_listing Sample.table)
               Sample.clean_world ["/src/a.jpg"; "/src/b.PNG"]
               (Sample.record "/src/a.jpg" 0 1920 1080) _)))).
  vm_compute. apply list_elem_of_here.
Defined.
